(** * sync_folders: one-way folder synchronisation (src/sync.py)

    A shallow embedding of [synchronize_folders], [log_and_print],
    [log_and_print_actions] and [synchronization_loop], together with a model
    of the library primitives they call ([glob], [os.path], [os], [shutil],
    [sorted], [set], [dict]).

    Modelling conventions.
    - A directory tree is a [node]; a directory holds a finite map from entry
      names to nodes.  A root that may or may not exist is an [option node].
    - A relative path is the list of its segments; [[]] is the root itself
      (what [os.path.relpath] prints as a single dot).
    - The source tree, the destination tree and the log directory are three
      separate trees: none of the three roots lies inside another one.
    - Symbolic links and special files are not modelled.
    - Primitives never fail for reasons outside the tree (permissions, disk
      space); every failure they report is determined by the tree. *)

From Stdlib Require Import Ascii.
From stdpp Require Import gmap strings list fin_maps sorting pretty.

Set Default Proof Using "Type".

(* ===================================================================== *)
(** * Paths *)
(* ===================================================================== *)

Abbreviation path := (list string) (only parsing).

(** [glob._ishidden]: a name is hidden when its first character is a dot. *)
Definition ishidden (name : string) : bool :=
  match name with
  | String "."%char _ => true
  | _ => false
  end.

(** [Path(fp).parents]: the proper ancestors of a relative path, nearest
    first, ending with the root. *)
Definition parents (p : path) : list path :=
  (λ n, take n p) <$> reverse (seq 0 (length p)).

(** The sort key and filter of the source: [len(Path(fp).parents)]. *)
Definition depth (p : path) : nat := length (parents p).

(** [os.path.basename] of a path with at least one segment. *)
Definition basename (p : path) : string := default EmptyString (last p).

(** How a relative path is printed. *)
Definition path_str (p : path) : string :=
  match p with
  | [] => "."
  | _ => String.concat "/" p
  end.

(* ===================================================================== *)
(** * Directory trees *)
(* ===================================================================== *)

(** What [shutil.copy2] carries over: the bytes, the timestamps and the
    permission bits. *)
Record fdata := FData { content : string; mtime : nat; mode : nat }.

#[warnings="-register-all"]
Inductive node :=
  | File (d : fdata)
  | Dir (cs : gmap string node).

Abbreviation fs := (option node) (only parsing).

Fixpoint lookup_path (o : fs) (p : path) : option node :=
  match p with
  | [] => o
  | x :: p' =>
      match o with
      | Some (Dir cs) => lookup_path (cs !! x) p'
      | _ => None
      end
  end.

Inductive kind := KFile | KDir.

#[global] Instance kind_eq_dec : EqDecision kind.
Proof. solve_decision. Defined.

Definition kind_of (o : option node) : option kind :=
  match o with
  | Some (File _) => Some KFile
  | Some (Dir _) => Some KDir
  | None => None
  end.

(** [os.path.exists] and [os.path.isdir]. *)
Definition exists_path (t : fs) (p : path) : bool :=
  match lookup_path t p with Some _ => true | None => false end.

Definition isdir (t : fs) (p : path) : bool :=
  match lookup_path t p with Some (Dir _) => true | _ => false end.

(* ===================================================================== *)
(** * Errors *)
(* ===================================================================== *)

Inductive error :=
  | FileExistsError
  | FileNotFoundError
  | NotADirectoryError
  | IsADirectoryError
  | OSError_ENOTEMPTY
  | shutil_Error.

Inductive result (A : Type) :=
  | Ok (a : A)
  | Raise (e : error).
Arguments Ok {A} a.
Arguments Raise {A} e.

(* ===================================================================== *)
(** * Filesystem primitives *)
(* ===================================================================== *)

(** A primitive acts on the entry found at a path: it receives the entry
    ([None] when nothing is there) and returns the entry that replaces it,
    with the error it raises, if any.  The tree keeps whatever was written
    before the error. *)
Abbreviation entry_op := (option node → option node * option error) (only parsing).

(** Walk down to [p] and apply [f] there.  Every directory on the way has to
    exist. *)
Fixpoint update_at (p : path) (f : entry_op) (o : fs) : fs * option error :=
  match p with
  | [] => f o
  | x :: p' =>
      match o with
      | Some (Dir cs) =>
          let '(o', e) := update_at p' f (cs !! x) in
          (Some (Dir (partial_alter (λ _, o') x cs)), e)
      | Some (File _) => (o, Some NotADirectoryError)
      | None => (o, Some FileNotFoundError)
      end
  end.

(** [os.mkdir], with the [exist_ok] handling [os.makedirs] wraps around it. *)
Definition mkdir_entry (exist_ok : bool) (o : option node) : option node * option error :=
  match o with
  | None => (Some (Dir ∅), None)
  | Some (Dir _) => (o, if exist_ok then None else Some FileExistsError)
  | Some (File _) => (o, Some FileExistsError)
  end.

(** [os.makedirs(name, exist_ok)] for [name = take n p]: when the head does
    not exist it is made first, a [FileExistsError] from that being passed
    over; then the leaf is made. *)
Fixpoint makedirs_prefix (exist_ok : bool) (p : path) (n : nat) (t : fs) : fs * option error :=
  let '(t1, e1) :=
    match n with
    | 0 => (t, None)
    | S m =>
        if exists_path t (take m p) then (t, None)
        else
          match makedirs_prefix exist_ok p m t with
          | (t', Some FileExistsError) => (t', None)
          | r => r
          end
    end in
  match e1 with
  | Some e => (t1, Some e)
  | None => update_at (take n p) (mkdir_entry exist_ok) t1
  end.

Definition makedirs (exist_ok : bool) (p : path) (t : fs) : fs * option error :=
  makedirs_prefix exist_ok p (length p) t.

(** [shutil.copy2] onto an entry: a destination that is a directory receives
    the file under the source's base name; anything else is replaced by the
    file, data and metadata. *)
Definition copy2_entry (d : fdata) (name : string) (o : option node) : option node * option error :=
  match o with
  | Some (Dir sub) =>
      match sub !! name with
      | Some (Dir _) => (o, Some IsADirectoryError)
      | _ => (Some (Dir (<[name := File d]> sub)), None)
      end
  | _ => (Some (File d), None)
  end.

Definition copy2 (src : fs) (sp dp : path) (t : fs) : fs * option error :=
  match lookup_path src sp with
  | Some (File d) => update_at dp (copy2_entry d (basename sp)) t
  | Some (Dir _) => (t, Some IsADirectoryError)
  | None => (t, Some FileNotFoundError)
  end.

(** [shutil.copytree(src, dst, dirs_exist_ok=True)] below the top call: the
    destination directory is made if absent, then every entry of the source
    directory is copied, directories recursively and files with [copy2].  An
    error inside does not stop the loop: it is recorded and one
    [shutil.Error] is raised at the end. *)
Fixpoint copytree_node (s : node) (o : option node) : option node * option error :=
  match s with
  | File _ => (o, Some NotADirectoryError)
  | Dir scs =>
      match o with
      | Some (File _) => (o, Some FileExistsError)
      | _ =>
          let dcs := match o with Some (Dir dcs) => dcs | _ => ∅ end in
          let r :=
            map_fold (λ x c (acc : gmap string node * bool),
                        let '(o', e) :=
                          match c with
                          | Dir _ => copytree_node c (acc.1 !! x)
                          | File d => copy2_entry d x (acc.1 !! x)
                          end in
                        (partial_alter (λ _, o') x acc.1,
                         acc.2 || bool_decide (is_Some e)))
                     (dcs, false) scs in
          (Some (Dir r.1), if r.2 then Some shutil_Error else None)
      end
  end.

Definition copytree (src : fs) (sp dp : path) (t : fs) : fs * option error :=
  match lookup_path src sp with
  | Some (Dir scs) =>
      match makedirs true dp t with
      | (t1, Some e) => (t1, Some e)
      | (t1, None) => update_at dp (copytree_node (Dir scs)) t1
      end
  | Some (File _) => (t, Some NotADirectoryError)
  | None => (t, Some FileNotFoundError)
  end.

(** [os.remove] and [os.rmdir]. *)
Definition remove_entry (o : option node) : option node * option error :=
  match o with
  | Some (File _) => (None, None)
  | Some (Dir _) => (o, Some IsADirectoryError)
  | None => (o, Some FileNotFoundError)
  end.

Definition rmdir_entry (o : option node) : option node * option error :=
  match o with
  | Some (Dir cs) =>
      if decide (size cs = 0) then (None, None) else (o, Some OSError_ENOTEMPTY)
  | Some (File _) => (o, Some NotADirectoryError)
  | None => (o, Some FileNotFoundError)
  end.

Definition remove (p : path) (t : fs) : fs * option error := update_at p remove_entry t.
Definition rmdir (p : path) (t : fs) : fs * option error := update_at p rmdir_entry t.

(* ===================================================================== *)
(** * glob *)
(* ===================================================================== *)

(** [glob._rlistdir] with [include_hidden=False]: the entries of a directory
    and, below each entry that is listed, its own entries.  A hidden entry is
    neither listed nor entered. *)
Fixpoint rlistdir (n : node) : list path :=
  match n with
  | File _ => []
  | Dir cs =>
      map_fold (λ x c acc,
                  acc ++ (if ishidden x then []
                          else [x] :: (cons x <$> rlistdir c)))
               [] cs
  end.

(** [glob(f"{root}/**", recursive=True)], every result already taken
    relative to the root: the root first, then the walk. *)
Definition glob (root : fs) : list path :=
  match root with
  | Some (Dir cs) => [] :: rlistdir (Dir cs)
  | _ => []
  end.

(* ===================================================================== *)
(** * sorted, dict *)
(* ===================================================================== *)

Fixpoint insert_by {A} (key : A → nat) (x : A) (l : list A) : list A :=
  match l with
  | [] => [x]
  | y :: l' => if decide (key x ≤ key y) then x :: l else y :: insert_by key x l'
  end.

Definition sort_by {A} (key : A → nat) (l : list A) : list A :=
  foldr (insert_by key) [] l.

(** Python's [sorted(l, key=..., reverse=...)]: a stable sort; with
    [reverse] the list is reversed before and after, which keeps equal keys
    in their original order. *)
Definition sorted {A} (l : list A) (key : A → nat) (reverse_ : bool) : list A :=
  if reverse_ then reverse (sort_by key (reverse l)) else sort_by key l.

(** A [dict] keeps its keys in insertion order. *)
Abbreviation dict := (list (string * list path)) (only parsing).

Fixpoint dict_set (k : string) (v : list path) (d : dict) : dict :=
  match d with
  | [] => [(k, v)]
  | (k', v') :: d' => if decide (k = k') then (k, v) :: d' else (k', v') :: dict_set k v d'
  end.

Fixpoint dict_get (d : dict) (k : string) : list path :=
  match d with
  | [] => []
  | (k', v') :: d' => if decide (k = k') then v' else dict_get d' k
  end.

(* ===================================================================== *)
(** * The destination tree as mutable state *)
(* ===================================================================== *)

(** The calls the program makes on the destination tree.  Source and
    destination path of a copy are the same relative path. *)
Inductive call :=
  | Makedirs (p : path)
  | Copy2 (p : path)
  | Copytree (p : path)
  | Remove (p : path)
  | Rmdir (p : path).

Definition call_path (c : call) : path :=
  match c with
  | Makedirs p | Copy2 p | Copytree p | Remove p | Rmdir p => p
  end.

(** The destination tree, and the journal of the calls made on it so far. *)
Record state := State { tree : option node; calls : list call }.

(** Computations that read and write the destination tree and may raise.  An
    exception keeps the state reached when it was raised. *)
Definition M (A : Type) : Type := state → result A * state.

#[global] Instance M_ret : MRet M := λ A a st, (Ok a, st).

#[global] Instance M_bind : MBind M := λ A B k m st,
  match m st with
  | (Ok a, st') => k a st'
  | (Raise e, st') => (Raise e, st')
  end.

Definition gets {A} (f : option node → A) : M A := λ st, (Ok (f (tree st)), st).

(** A [for] loop whose body may raise. *)
Fixpoint for_each {A} (l : list A) (body : A → M unit) : M unit :=
  match l with
  | [] => mret tt
  | x :: l' => body x ;; for_each l' body
  end.

Definition run_call (src : fs) (c : call) (t : fs) : fs * option error :=
  match c with
  | Makedirs p => makedirs false p t
  | Copy2 p => copy2 src p p t
  | Copytree p => copytree src p p t
  | Remove p => remove p t
  | Rmdir p => rmdir p t
  end.

Definition exec (src : fs) (c : call) : M unit :=
  λ st, let '(t', e) := run_call src c (tree st) in
        (match e with None => Ok tt | Some e => Raise e end,
         State t' (calls st ++ [c])).

(* ===================================================================== *)
(** * synchronize_folders *)
(* ===================================================================== *)

(** Lines 26-27 and 36-39: the enumeration of one root, the first result of
    [glob] (the root) dropped. *)
Definition content_of (root : fs) : list path := drop 1 (glob root).

(** Lines 42-47: the action dict, its three keys set in this order.  The
    order of a list made from a [set] is whatever [elements] gives; nothing
    below depends on it. *)
Definition classify (rel_original_content rel_synchronized_content : list path) : dict :=
  let set_original_content : gset path := list_to_set rel_original_content in
  let set_synchronized_content : gset path := list_to_set rel_synchronized_content in
  let actions := [] in
  let actions := dict_set "created" (elements (set_original_content ∖ set_synchronized_content)) actions in
  let actions := dict_set "removed" (elements (set_synchronized_content ∖ set_original_content)) actions in
  let actions := dict_set "copied" (elements (set_original_content ∩ set_synchronized_content)) actions in
  actions.

(** The bodies of the three loops (lines 58-63, 75-80 and 96-102).
    [src_path] and [dst_path] are the same relative path, read in the source
    tree and in the destination tree. *)
Definition create_body (src : fs) (file_path : path) : M unit :=
  if isdir src file_path then exec src (Makedirs file_path)
  else exec src (Copy2 file_path).

Definition copy_body (src : fs) (file_path : path) : M unit :=
  if isdir src file_path then exec src (Copytree file_path)
  else exec src (Copy2 file_path).

Definition remove_body (src : fs) (file_path : path) : M unit :=
  d ← gets (λ t, isdir t file_path);
  if negb d then exec src (Remove file_path) else exec src (Rmdir file_path).

(** What the three loops run over (lines 52-53, 69-70 and 91-92). *)
Definition create_order (actions : dict) : list path :=
  sorted (dict_get actions "created") depth false.

Definition copy_order (actions : dict) : list path :=
  filter (λ fp, depth fp = 1) (dict_get actions "copied").

Definition remove_order (actions : dict) : list path :=
  sorted (dict_get actions "removed") depth true.

(** [synchronize_folders(original_path, synchronized_path)]: [src] is the
    tree at [original_path], the state holds the tree at
    [synchronized_path]. *)
Definition synchronize_folders (src : fs) : M dict :=
  let original_content := content_of src in
  synchronized_content ← gets content_of;
  let actions := classify original_content synchronized_content in
  for_each (create_order actions) (create_body src) ;;
  for_each (copy_order actions) (copy_body src) ;;
  for_each (remove_order actions) (remove_body src) ;;
  mret actions.

(* ===================================================================== *)
(** * Logging and the scheduling loop *)
(* ===================================================================== *)

Definition upper (c : ascii) : ascii :=
  let n := nat_of_ascii c in
  if decide (97 ≤ n ≤ 122) then ascii_of_nat (n - 32) else c.

Definition lower (c : ascii) : ascii :=
  let n := nat_of_ascii c in
  if decide (65 ≤ n ≤ 90) then ascii_of_nat (n + 32) else c.

Fixpoint map_string (f : ascii → ascii) (s : string) : string :=
  match s with
  | EmptyString => EmptyString
  | String c s' => String (f c) (map_string f s')
  end.

(** [str.capitalize]. *)
Definition capitalize (s : string) : string :=
  match s with
  | EmptyString => EmptyString
  | String c s' => String (upper c) (map_string lower s')
  end.

(** Everything a turn of the scheduling loop touches: the destination tree,
    the lines of [sync_log.txt] in the log directory, the lines printed, and
    the wall clock in seconds.  The clock moves in [sleep] only. *)
Record world := World {
  dst_state : state;
  sync_log : list string;
  stdout : list string;
  clock : nat
}.

Definition fwrite (line : string) (w : world) : world :=
  World (dst_state w) (sync_log w ++ [line]) (stdout w) (clock w).

Definition print (line : string) (w : world) : world :=
  World (dst_state w) (sync_log w) (stdout w ++ [line]) (clock w).

(** [open(.., 'w')] followed by closing the file: the content is dropped. *)
Definition truncate (w : world) : world :=
  World (dst_state w) [] (stdout w) (clock w).

Definition sleep (seconds : nat) (w : world) : world :=
  World (dst_state w) (sync_log w) (stdout w) (clock w + seconds).

Definition set_dst (st : state) (w : world) : world :=
  World st (sync_log w) (stdout w) (clock w).

Section Scheduler.

(** [str(datetime.now().replace(microsecond=0))] when the clock shows [n]. *)
Variable strftime : nat → string.

(** Lines 111-112. *)
Definition action_string (now : string) (action_key : string) (action_path : path) : string :=
  now +:+ " " +:+ capitalize action_key +:+ " file with file path " +:+ path_str action_path.

Definition log_and_print (actions : dict) (w : world) : world :=
  foldl (λ w '(action_key, paths),
           foldl (λ w action_path,
                    let now := strftime (clock w) in
                    let action_string := action_string now action_key action_path in
                    print action_string (fwrite action_string w))
                 w paths)
        w actions.

Definition log_and_print_actions (actions : dict) (w : world) : world :=
  let w := truncate w in
  log_and_print actions w.

(** Lines 134-136. *)
Definition started_message (now original_path synchronized_path : string)
    (synchronization_interval_seconds : nat) : string :=
  now +:+ " Started synchronization from " +:+ original_path +:+ " to "
  +:+ synchronized_path +:+ " with a synchronization interval of "
  +:+ pretty synchronization_interval_seconds +:+ " seconds".

(** One turn of the [while True] loop (lines 133-140). *)
Definition pass (src : fs) (original_path synchronized_path : string)
    (synchronization_interval_seconds : nat) (w : world) : result unit * world :=
  let now := strftime (clock w) in
  let w := print (started_message now original_path synchronized_path
                    synchronization_interval_seconds) w in
  match synchronize_folders src (dst_state w) with
  | (Raise e, st) => (Raise e, set_dst st w)
  | (Ok actions, st) =>
      let w := set_dst st w in
      let w := log_and_print_actions actions w in
      let w := print (now +:+ " Synchronization complete") w in
      (Ok tt, sleep synchronization_interval_seconds w)
  end.

(** The loop never ends by itself: after [n] turns it is either still
    running or has died of an exception.  [log_path] is the directory of
    the [sync_log] of the world. *)
Inductive loop_outcome :=
  | Running (w : world)
  | Died (e : error) (w : world).

Fixpoint synchronization_loop (n : nat) (src : fs) (original_path synchronized_path : string)
    (synchronization_interval_seconds : nat) (w : world) : loop_outcome :=
  match n with
  | 0 => Running w
  | S n' =>
      match pass src original_path synchronized_path synchronization_interval_seconds w with
      | (Raise e, w') => Died e w'
      | (Ok _, w') =>
          synchronization_loop n' src original_path synchronized_path
            synchronization_interval_seconds w'
      end
  end.

End Scheduler.

(* ===================================================================== *)
(** * Command line *)
(* ===================================================================== *)

(** What [argparse] gets from the callable given as [type=]: the converted
    value, or an [ArgumentTypeError] with its message. *)
Inductive argument (A : Type) :=
  | Accepted (value : A)
  | ArgumentTypeError (message : string).
Arguments Accepted {A} value.
Arguments ArgumentTypeError {A} message.

(** Lines 16-20.  [disk] gives the tree found under a path name, [None] when
    nothing is there. *)
Definition valid_folder (disk : string → option node) (folder_name : string) : argument string :=
  if negb (exists_path (disk folder_name) []) then
    ArgumentTypeError (folder_name +:+ " does not exist")
  else Accepted folder_name.

(* ===================================================================== *)
(** * Notions the statements are written with *)
(* ===================================================================== *)

(** The number of nodes of a tree, the measure of [node_ind']. *)
Fixpoint nsize (n : node) : nat :=
  match n with
  | File _ => 1
  | Dir cs => S (map_fold (λ _ c acc, nsize c + acc) 0 cs)
  end.

(** No segment of the path is hidden. *)
Definition visible (p : path) : Prop := Forall (λ x, ishidden x = false) p.

#[global] Instance visible_dec p : Decision (visible p).
Proof. unfold visible. apply _. Defined.

(** What an enumeration can see of a tree: the entries other than the root
    reached through names that are not hidden. *)
Definition listed (t : fs) (p : path) : Prop :=
  p ≠ [] ∧ visible p ∧ is_Some (lookup_path t p).

(** The kind of the entry at a path, [None] when there is none. *)
Definition kindp (t : fs) (p : path) : option kind := kind_of (lookup_path t p).

(** Where [copy2] writes: into the destination when that is a directory, onto
    it otherwise. *)
Definition copy2_target (t : fs) (sp dp : path) : path :=
  if isdir t dp then dp ++ [basename sp] else dp.

(** What [copytree] does with one entry [x] of the source directory, given
    the destination entry of the same name. *)
Definition entry_step (x : string) (c : node) (o : option node) : option node * option error :=
  match c with
  | Dir _ => copytree_node c o
  | File d => copy2_entry d x o
  end.

(** The loop of [copytree] over the entries [scs] of the source directory,
    from the entries [dcs] of the destination directory: the entries left
    and whether an error was recorded. *)
Definition fold_entries (scs dcs : gmap string node) : gmap string node * bool :=
  map_fold (λ x c (acc : gmap string node * bool),
              let '(o', e) := entry_step x c (acc.1 !! x) in
              (partial_alter (λ _, o') x acc.1, acc.2 || bool_decide (is_Some e)))
           (dcs, false) scs.

(** The entries of a directory; none for a file or for nothing. *)
Definition children_of (o : option node) : gmap string node :=
  match o with Some (Dir dcs) => dcs | _ => ∅ end.

(** The creating and copying calls only add: what was there keeps its kind,
    and what is new either mirrors a source entry or is a file that landed
    inside a directory standing where the source has a file. *)
Definition grows (src t t' : option node) : Prop :=
  (∀ q k, kindp t q = Some k → kindp t' q = Some k) ∧
  (∀ q k, kindp t' q = Some k →
          kindp t q = Some k ∨ kindp src q = Some k ∨
          (k = KFile ∧ ∃ r x, q = r ++ [x] ∧
                              kindp src r = Some KFile ∧ kindp t r = Some KDir)).

(** The order [sorted] sorts by. *)
Definition le_key {A} (key : A → nat) (a b : A) : Prop := key a ≤ key b.

(** The call a loop body issues for a path. *)
Definition create_call (src : option node) (p : path) : call :=
  if isdir src p then Makedirs p else Copy2 p.

Definition copy_call (src : option node) (p : path) : call :=
  if isdir src p then Copytree p else Copy2 p.

Definition remove_call (t : option node) (p : path) : call :=
  if isdir t p then Rmdir p else Remove p.

(** The calls a pass may make, given its action dict: [makedirs] and [copy2]
    on created paths, [copytree] and [copy2] on the copied paths of depth 1,
    [remove] and [rmdir] on removed paths. *)
Definition call_in_order (src : option node) (actions : list (string * list path))
    (c : call) : Prop :=
  match c with
  | Makedirs p => p ∈ create_order actions ∧ isdir src p = true
  | Copy2 p => (p ∈ create_order actions ∨ p ∈ copy_order actions) ∧ isdir src p = false
  | Copytree p => p ∈ copy_order actions ∧ isdir src p = true
  | Remove p | Rmdir p => p ∈ remove_order actions
  end.

(** The lines one call of [log_and_print] writes: for every key of the dict
    in turn, one line per path of its list. *)
Definition log_lines (now : string) (actions : list (string * list path)) : list string :=
  flat_map (λ kv, action_string now kv.1 <$> kv.2) actions.

(** The log as the specification words it: created, then the depth-1 copied
    paths, then removed, each group in the order of application. *)
Definition specified_log (now : string) (actions : list (string * list path)) : list string :=
  (action_string now "created" <$> create_order actions) ++
  (action_string now "copied" <$> copy_order actions) ++
  (action_string now "removed" <$> remove_order actions).

#[global] Instance listed_dec t p : Decision (listed t p).
Proof. unfold listed. apply _. Defined.

(** Nothing in the destination [o] stands in the way of [copytree] from the
    source [s]: no file where the source has a directory, and no directory
    [q/x/x] where the source has a file [q/x] and the destination a
    directory [q/x]. *)
Definition conflict_free (s o : option node) : Prop :=
  (∀ q, kindp s q = Some KDir → kindp o q ≠ Some KFile) ∧
  (∀ q x, kindp s (q ++ [x]) = Some KFile →
          kindp o (q ++ [x]) = Some KDir →
          kindp o (q ++ [x; x]) ≠ Some KDir).

(** The destination is ready for the copy loop: every entry of the source
    root that is listed has its kind in the destination, and nothing stands
    in the way of copying it. *)
Definition ready (src t : option node) : Prop :=
  ∀ x, listed src [x] →
       kindp t [x] = kindp src [x] ∧
       conflict_free (lookup_path src [x]) (lookup_path t [x]).

(** A call of the pass started in [st] raises [e] and leaves [st']: in the
    create loop, in the copy loop or in the remove loop, every turn before it
    having returned. *)
Inductive raises_in_pass (src : option node) (st : state) (e : error) (st' : state) : Prop :=
  | raises_in_create l1 p l2 st1 :
      create_order (classify (content_of src) (content_of (tree st))) = l1 ++ p :: l2 →
      for_each l1 (create_body src) st = (Ok tt, st1) →
      create_body src p st1 = (Raise e, st') →
      raises_in_pass src st e st'
  | raises_in_copy st1 l1 p l2 st2 :
      for_each (create_order (classify (content_of src) (content_of (tree st))))
        (create_body src) st = (Ok tt, st1) →
      copy_order (classify (content_of src) (content_of (tree st))) = l1 ++ p :: l2 →
      for_each l1 (copy_body src) st1 = (Ok tt, st2) →
      copy_body src p st2 = (Raise e, st') →
      raises_in_pass src st e st'
  | raises_in_remove st1 st2 l1 p l2 st3 :
      for_each (create_order (classify (content_of src) (content_of (tree st))))
        (create_body src) st = (Ok tt, st1) →
      for_each (copy_order (classify (content_of src) (content_of (tree st))))
        (copy_body src) st1 = (Ok tt, st2) →
      remove_order (classify (content_of src) (content_of (tree st))) = l1 ++ p :: l2 →
      for_each l1 (remove_body src) st2 = (Ok tt, st3) →
      remove_body src p st3 = (Raise e, st') →
      raises_in_pass src st e st'.

(* ===================================================================== *)
(** * Example trees *)
(* ===================================================================== *)

(** A tree with a hidden file next to a plain one. *)
Definition hidden_example : option node :=
  Some (Dir {[ ".env" := File (FData "KEY=1" 7 384); "a.txt" := File (FData "A" 7 420) ]}).

(** Source with [a.txt] and [d/x]; destination with [b.txt] and [d/x]. *)
Definition log_src : option node :=
  Some (Dir {[ "a.txt" := File (FData "A" 1 420);
               "d" := Dir {[ "x" := File (FData "X" 1 420) ]} ]}).

Definition log_dst : option node :=
  Some (Dir {[ "b.txt" := File (FData "B" 1 420);
               "d" := Dir {[ "x" := File (FData "old" 0 420) ]} ]}).

(** A world whose log still holds a line of an earlier run, and a clock that
    prints the same time whenever it is read. *)
Definition log_world : world := World (State log_dst []) ["stale line"] [] 0.

Definition noon (_ : nat) : string := "2024-01-01 12:00:00".

(** Source of the specification's convergence scenario: [a.txt], [b/] and
    [b/c.txt], to be synchronised into an empty destination. *)
Definition conv_src : option node :=
  Some (Dir {[ "a.txt" := File (FData "A" 1 420);
               "b" := Dir {[ "c.txt" := File (FData "C" 2 384) ]} ]}).

Definition conv_dst : option node := Some (Dir ∅).

(** Source: an empty directory.  Destination: a directory [old] that holds
    only the hidden file [.keep]. *)
Definition stale_src : option node := Some (Dir ∅).

Definition stale_dst : option node :=
  Some (Dir {[ "old" := Dir {[ ".keep" := File (FData "" 3 420) ]} ]}).

(** Source with [a.txt] only; destination with [a.txt], [old.txt] and the
    directory [oldDir] holding [f]. *)
Definition removal_src : option node :=
  Some (Dir {[ "a.txt" := File (FData "A" 1 420) ]}).

Definition removal_dst : option node :=
  Some (Dir {[ "a.txt" := File (FData "A" 1 420);
               "old.txt" := File (FData "O" 1 420);
               "oldDir" := Dir {[ "f" := File (FData "F" 1 420) ]} ]}).

(** Source: the file [a].  Destination: an empty directory [a]. *)
Definition clash_src : option node := Some (Dir {[ "a" := File (FData "A" 1 420) ]}).
Definition clash_dst : option node := Some (Dir {[ "a" := Dir ∅ ]}).

(** Source: the directory [d] holding only the hidden file [.h].
    Destination: an empty directory [d]. *)
Definition dot_src : option node :=
  Some (Dir {[ "d" := Dir {[ ".h" := File (FData "H" 5 420) ]} ]}).

Definition dot_dst : option node := Some (Dir {[ "d" := Dir ∅ ]}).

(** What is found under the path names of a command line: a directory at
    [src], a regular file at [sync.txt], nothing elsewhere. *)
Definition disk_example (name : string) : option node :=
  if decide (name = "src") then conv_src
  else if decide (name = "sync.txt") then Some (File (FData "" 0 420))
  else None.

(* ===================================================================== *)
(** * Trees: induction and lookups *)
(* ===================================================================== *)

Lemma nsize_child cs x c : cs !! x = Some c → nsize c < nsize (Dir cs).
Proof.
  intros Hx. simpl.
  rewrite (map_fold_delete_L _ _ x c cs); [lia | intros; lia | done].
Qed.

(** Induction on a tree: a directory inherits the property of its entries. *)
Lemma node_ind' (P : node → Prop) :
  (∀ d, P (File d)) →
  (∀ cs, (∀ x c, cs !! x = Some c → P c) → P (Dir cs)) →
  ∀ n, P n.
Proof.
  intros HF HD n.
  remember (nsize n) as k eqn:Hk. revert n Hk.
  induction k as [k IH] using lt_wf_ind. intros [d|cs] ->; [apply HF|].
  apply HD. intros x c Hx. eapply IH; [|done]. by eapply nsize_child.
Qed.

Lemma lookup_path_None p : lookup_path None p = None.
Proof. by destruct p. Qed.

Lemma lookup_path_File d p : p ≠ [] → lookup_path (Some (File d)) p = None.
Proof. by destruct p. Qed.

Lemma lookup_path_app o p q :
  lookup_path o (p ++ q) = lookup_path (lookup_path o p) q.
Proof.
  revert o. induction p as [|x p IH]; intros o; [done|].
  simpl. destruct o as [[d|cs]|]; auto using lookup_path_None.
Qed.

Lemma lookup_path_prefix o p q :
  p `prefix_of` q → is_Some (lookup_path o q) → is_Some (lookup_path o p).
Proof.
  intros [r ->]. rewrite lookup_path_app.
  destruct (lookup_path o p); [eauto|]. rewrite lookup_path_None. by intros [? ?].
Qed.

Lemma lookup_path_prefix_dir o p q :
  p `prefix_of` q → p ≠ q → is_Some (lookup_path o q) →
  kind_of (lookup_path o p) = Some KDir.
Proof.
  intros [r ->] Hne. rewrite lookup_path_app.
  destruct r as [|x r]; [by rewrite app_nil_r in Hne|].
  destruct (lookup_path o p) as [[d|cs]|]; simpl; [|done|]; by intros [? ?].
Qed.

Lemma elem_of_map_fold_app {A B} (g : string → A → list B) (m : gmap string A) (b : B) :
  b ∈ map_fold (λ x c acc, acc ++ g x c) [] m ↔ ∃ x c, m !! x = Some c ∧ b ∈ g x c.
Proof.
  revert b. apply (map_fold_weak_ind (λ acc m, ∀ b, b ∈ acc ↔ ∃ x c, m !! x = Some c ∧ b ∈ g x c)).
  - intros b. split; [by intros ?%elem_of_nil|]. intros (x & c & Hx & _). by rewrite lookup_empty in Hx.
  - intros i x m' r Hi IH b. rewrite elem_of_app, IH. split.
    + intros [(y & c & Hy & Hb)|Hb].
      * exists y, c. split; [|done]. rewrite lookup_insert_ne; [done|]. intros ->. congruence.
      * exists i, x. by rewrite lookup_insert_eq.
    + intros (y & c & Hy & Hb). destruct (decide (i = y)) as [->|Hne].
      * rewrite lookup_insert_eq in Hy. injection Hy as ->. by right.
      * rewrite lookup_insert_ne in Hy by done. left. eauto.
Qed.

Lemma elem_of_rlistdir n p : p ∈ rlistdir n ↔ listed (Some n) p.
Proof.
  revert p. induction n as [d|cs IH] using node_ind'; intros p.
  - simpl. split; [by intros ?%elem_of_nil|]. intros (Hne & _ & Hs).
    rewrite lookup_path_File in Hs by done. by destruct Hs.
  - change (rlistdir (Dir cs)) with
      (map_fold (λ x c acc, acc ++ (if ishidden x then []
                                     else [x] :: (cons x <$> rlistdir c))) [] cs).
    rewrite elem_of_map_fold_app. split.
    + intros (x & c & Hx & Hp). destruct (ishidden x) eqn:Hh; [by apply elem_of_nil in Hp|].
      apply elem_of_cons in Hp as [->|Hp].
      * split; [done|]. split; [by repeat constructor|]. simpl. rewrite Hx. eauto.
      * apply list_elem_of_fmap in Hp as (q & -> & Hq). apply (IH x c Hx) in Hq as (Hne & Hv & Hs).
        split; [done|]. split; [by constructor|]. simpl. by rewrite Hx.
    + intros (Hne & Hv & Hs). destruct p as [|x q]; [done|].
      apply Forall_cons in Hv as [Hh Hv]. simpl in Hs.
      destruct (cs !! x) as [c|] eqn:Hx; [|rewrite lookup_path_None in Hs; by destruct Hs].
      exists x, c. split; [done|]. rewrite Hh.
      destruct q as [|y q]; [by left|]. right.
      apply list_elem_of_fmap. exists (y :: q). split; [done|].
      apply (IH x c Hx). by split.
Qed.

Lemma elem_of_content_of t p : p ∈ content_of t ↔ listed t p.
Proof.
  unfold content_of, glob. destruct t as [[d|cs]|].
  - simpl. split; [by intros ?%elem_of_nil|]. intros (Hne & _ & Hs).
    rewrite lookup_path_File in Hs by done. by destruct Hs.
  - exact (elem_of_rlistdir (Dir cs) p).
  - simpl. split; [by intros ?%elem_of_nil|]. intros (_ & _ & Hs).
    rewrite lookup_path_None in Hs. by destruct Hs.
Qed.

(** An enumeration is closed under taking ancestors other than the root. *)
Lemma listed_prefix t p q : p `prefix_of` q → p ≠ [] → listed t q → listed t p.
Proof.
  intros Hpq Hne (_ & Hv & Hs). split; [done|]. split.
  - destruct Hpq as [r ->]. by apply Forall_app in Hv as [? _].
  - by eapply lookup_path_prefix.
Qed.

Lemma depth_length p : depth p = length p.
Proof. unfold depth, parents. by rewrite length_fmap, length_reverse, length_seq. Qed.

(* ===================================================================== *)
(** * What the primitives do to a tree *)
(* ===================================================================== *)

Lemma kindp_is_Some t p : is_Some (kindp t p) ↔ is_Some (lookup_path t p).
Proof.
  unfold kindp. destruct (lookup_path t p) as [[d|cs]|]; simpl;
    split; intros [? ?]; eauto; done.
Qed.

Lemma kindp_None t p : kindp t p = None ↔ lookup_path t p = None.
Proof. unfold kindp. by destruct (lookup_path t p) as [[d|cs]|]. Qed.

Lemma isdir_kindp t p : isdir t p = true ↔ kindp t p = Some KDir.
Proof. unfold isdir, kindp. by destruct (lookup_path t p) as [[d|cs]|]. Qed.

Lemma isdir_false_kindp t p : isdir t p = false ↔ kindp t p ≠ Some KDir.
Proof. unfold isdir, kindp. by destruct (lookup_path t p) as [[d|cs]|]. Qed.

Lemma exists_path_true t p : exists_path t p = true ↔ is_Some (lookup_path t p).
Proof.
  unfold exists_path. destruct (lookup_path t p); split; eauto; try done.
Qed.

Lemma kindp_app t p r : kindp t (p ++ r) = kindp (lookup_path t p) r.
Proof. unfold kindp. by rewrite lookup_path_app. Qed.

Lemma kindp_below_file t p r : kindp t p ≠ Some KDir → r ≠ [] → kindp t (p ++ r) = None.
Proof.
  intros Hk Hr. rewrite kindp_app. unfold kindp in *.
  destruct (lookup_path t p) as [[d|cs]|]; [|done|].
  - by rewrite lookup_path_File.
  - by rewrite lookup_path_None.
Qed.

(** Entries that are not at or below [p] keep their kind, whatever happens
    at [p]. *)
Lemma update_at_frame p f o q :
  ¬ p `prefix_of` q → kindp (update_at p f o).1 q = kindp o q.
Proof.
  revert o q. induction p as [|x p IH]; intros o q Hq.
  { destruct Hq. apply prefix_nil. }
  simpl. destruct o as [[d|cs]|]; [done| |done].
  destruct (update_at p f (cs !! x)) as [o1 e1] eqn:Hu. simpl.
  destruct q as [|y q]; [done|]. unfold kindp. simpl.
  destruct (decide (x = y)) as [->|Hne].
  - rewrite lookup_partial_alter_eq. replace o1 with (update_at p f (cs !! y)).1 by by rewrite Hu.
    apply IH. intros Hpq. apply Hq. by apply prefix_cons.
  - by rewrite lookup_partial_alter_ne.
Qed.

(** When the walk succeeds, the primitive was applied to the entry at [p]
    and its result is what is found there afterwards. *)
Lemma update_at_ok p f o o' :
  update_at p f o = (o', None) →
  (f (lookup_path o p)).2 = None ∧
  ∀ r, lookup_path o' (p ++ r) = lookup_path (f (lookup_path o p)).1 r.
Proof.
  revert o o'. induction p as [|x p IH]; intros o o' Hu.
  { simpl in *. rewrite Hu. done. }
  simpl in Hu. destruct o as [[d|cs]|]; [done| |done].
  destruct (update_at p f (cs !! x)) as [o1 e1] eqn:Hu1.
  injection Hu as <- ->. apply IH in Hu1 as [He Hl]. split; [done|].
  intros r. simpl. by rewrite lookup_partial_alter_eq.
Qed.

(** ** mkdir and makedirs *)

Lemma mkdir_entry_ok exist_ok o :
  (mkdir_entry exist_ok o).2 = None →
  (o = None ∧ (mkdir_entry exist_ok o).1 = Some (Dir ∅)) ∨
  (exist_ok = true ∧ kind_of o = Some KDir ∧ (mkdir_entry exist_ok o).1 = o).
Proof.
  destruct o as [[d|cs]|]; simpl; [done| |by left].
  destruct exist_ok; [|done]. by right.
Qed.

Lemma mkdir_at_ok exist_ok p t t' :
  update_at p (mkdir_entry exist_ok) t = (t', None) →
  (p = [] ∨ ∃ p' x, p = p' ++ [x] ∧ is_Some (lookup_path t p')) →
  (kindp t p = None ∨ exist_ok = true) ∧
  (kindp t p = None → lookup_path t' p = Some (Dir ∅)) ∧
  ∀ q, kindp t' q =
       match kindp t q with
       | Some k => Some k
       | None => if decide (q `prefix_of` p) then Some KDir else None
       end.
Proof.
  intros Hu Hhead. pose proof (update_at_frame p (mkdir_entry exist_ok) t) as Hfr.
  rewrite Hu in Hfr. simpl in Hfr.
  apply update_at_ok in Hu as [He Hl].
  assert (Hpre : ∀ q, q `prefix_of` p → q ≠ p → is_Some (kindp t q)).
  { intros q Hq Hne. apply kindp_is_Some.
    destruct Hhead as [->|(p' & x & -> & Hs)].
    - apply prefix_nil_inv in Hq. done.
    - eapply lookup_path_prefix; [|done].
      destruct Hq as [r Hr]. destruct r as [|y r _] using rev_ind.
      + rewrite app_nil_r in Hr. by destruct Hne.
      + rewrite app_assoc in Hr. apply app_inj_tail in Hr as [-> _]. by eexists. }
  apply mkdir_entry_ok in He as [[Hn Hnew]|(-> & Hk & Hsame)].
  - split; [left; by apply kindp_None|]. split.
    { intros _. specialize (Hl []). rewrite app_nil_r in Hl. by rewrite Hl, Hnew. }
    intros q. destruct (decide (p `prefix_of` q)) as [[r ->]|Hnp].
    + unfold kindp at 1. rewrite Hl, Hnew. rewrite kindp_app. rewrite Hn.
      unfold kindp at 1. rewrite lookup_path_None. simpl.
      destruct r as [|y r].
      * rewrite app_nil_r. by rewrite decide_True.
      * simpl. rewrite lookup_empty, lookup_path_None. simpl.
        rewrite decide_False; [done|]. intros [r' Hr']. rewrite <-app_assoc in Hr'.
        rewrite <-(app_nil_r p) in Hr' at 1. by apply app_inv_head in Hr'.
    + rewrite Hfr by done. destruct (kindp t q) eqn:Hkq; [done|].
      case_decide as Hqp; [|done].
      destruct (Hpre q Hqp) as [k Hk]; [|congruence].
      intros ->. by destruct Hnp.
  - split; [by right|]. split.
    { intros Hn. unfold kindp in Hn. by rewrite Hn in Hk. }
    intros q. destruct (decide (p `prefix_of` q)) as [[r ->]|Hnp].
    + unfold kindp at 1. rewrite Hl, Hsame, <-lookup_path_app. fold (kindp t (p ++ r)).
      destruct (kindp t (p ++ r)) eqn:Hkq; [done|].
      case_decide as Hqp; [|done]. destruct Hqp as [r' Hr'].
      rewrite <-app_assoc in Hr'. rewrite <-(app_nil_r p) in Hr' at 1.
      apply app_inv_head in Hr'. symmetry in Hr'. apply app_eq_nil in Hr' as [-> _].
      rewrite app_nil_r in Hkq. unfold kindp in Hkq. congruence.
    + rewrite Hfr by done. destruct (kindp t q) eqn:Hkq; [done|].
      case_decide as Hqp; [|done].
      destruct (Hpre q Hqp) as [k' Hk']; [|congruence].
      intros ->. by destruct Hnp.
Qed.

Lemma update_at_error p f o o' e :
  update_at p f o = (o', Some e) →
  (f (lookup_path o p)).2 = Some e ∨ e = NotADirectoryError ∨ e = FileNotFoundError.
Proof.
  revert o o'. induction p as [|x p IH]; intros o o' Hu.
  { simpl in *. rewrite Hu. by left. }
  simpl in Hu. destruct o as [[d|cs]|].
  - injection Hu as _ <-. auto.
  - destruct (update_at p f (cs !! x)) as [o1 e1] eqn:Hu1.
    injection Hu as _ ->. by apply IH in Hu1.
  - injection Hu as _ <-. auto.
Qed.

Lemma take_S_prefix (p : path) m : S m ≤ length p → ¬ take (S m) p `prefix_of` take m p.
Proof.
  intros Hm Hpre. apply prefix_length in Hpre.
  rewrite !length_take in Hpre. lia.
Qed.

Lemma take_S_snoc (p : path) m :
  S m ≤ length p → ∃ x, take (S m) p = take m p ++ [x].
Proof.
  intros Hm. destruct (lookup_lt_is_Some_2 p m) as [x Hx]; [lia|].
  exists x. by apply take_S_r.
Qed.

Lemma makedirs_prefix_spec exist_ok p n :
  n ≤ length p →
  ∀ t,
    (exists_path t (take n p) = false →
     ∀ t', makedirs_prefix exist_ok p n t ≠ (t', Some FileExistsError)) ∧
    (∀ t', makedirs_prefix exist_ok p n t = (t', None) →
       (kindp t (take n p) = None ∨ exist_ok = true) ∧
       (kindp t (take n p) = None → lookup_path t' (take n p) = Some (Dir ∅)) ∧
       ∀ q, kindp t' q =
            match kindp t q with
            | Some k => Some k
            | None => if decide (q `prefix_of` take n p) then Some KDir else None
            end).
Proof.
  induction n as [|m IH]; intros Hn t.
  - split.
    + intros Hex t' Hu.
      change (makedirs_prefix exist_ok p 0 t) with (update_at [] (mkdir_entry exist_ok) t) in Hu.
      apply update_at_error in Hu as [Hu|[?|?]]; [|done..].
      simpl in Hu. unfold exists_path in Hex. simpl in Hex. by destruct t.
    + intros t' Hu.
      change (makedirs_prefix exist_ok p 0 t) with (update_at [] (mkdir_entry exist_ok) t) in Hu.
      change (take 0 p) with (@nil string).
      apply mkdir_at_ok in Hu; [done|by left].
  - destruct (IH ltac:(lia) t) as [IHq IHp].
    destruct (take_S_snoc p m Hn) as [x Hx].
    simpl makedirs_prefix.
    destruct (exists_path t (take m p)) eqn:Hex.
    + (* the head exists *)
      split.
      * intros Hex' t' Hu. apply update_at_error in Hu as [Hu|[?|?]]; [|done..].
        unfold exists_path in Hex'.
        change (match p with [] => [] | y :: l => y :: take m l end) with (take (S m) p) in *.
        destruct (lookup_path t (take (S m) p)); [done|]. done.
      * intros t' Hu.
        change (match p with [] => [] | y :: l => y :: take m l end) with (take (S m) p) in *.
        apply mkdir_at_ok in Hu; [done|]. right. exists (take m p), x. split; [done|].
        by apply exists_path_true.
    + (* the head is made first *)
      change (match p with [] => [] | y :: l => y :: take m l end) with (take (S m) p) in *.
      destruct (makedirs_prefix exist_ok p m t) as [t1 e1] eqn:Hrec.
      assert (e1 ≠ Some FileExistsError) as Hnfee.
      { intros ->. by eapply IHq. }
      destruct e1 as [e1|].
      { split.
        - intros _ t' Hu. destruct e1; simplify_eq.
        - intros t' Hu. destruct e1; simplify_eq. }
      destruct (IHp t1 eq_refl) as (_ & Hmade & Hkinds).
      assert (kindp t (take m p) = None) as Hhead.
      { apply kindp_None. unfold exists_path in Hex. by destruct (lookup_path t (take m p)). }
      assert (is_Some (lookup_path t1 (take m p))) as Hhead1.
      { rewrite Hmade by done. eauto. }
      assert (∀ r, r ≠ [] → kindp t (take m p ++ r) = None) as Hbelow.
      { intros r Hr. apply kindp_below_file; [|done]. by rewrite Hhead. }
      assert (kindp t1 (take (S m) p) = None) as Hleaf1.
      { rewrite Hkinds, Hx, Hbelow by done. rewrite <-Hx.
        rewrite decide_False; [done|]. by apply take_S_prefix. }
      split.
      * intros _ t' Hu. apply update_at_error in Hu as [Hu|[?|?]]; [|done..].
        apply kindp_None in Hleaf1. rewrite Hleaf1 in Hu. done.
      * intros t' Hu. apply mkdir_at_ok in Hu as (_ & Hnew & Hk');
          [|right; by exists (take m p), x].
        split; [left; rewrite Hx; by apply Hbelow|]. split; [auto|].
        intros q. rewrite Hk', Hkinds. destruct (kindp t q); [done|].
        case_decide as H1.
        { rewrite decide_True; [done|]. etrans; [done|]. rewrite Hx. by apply prefix_app_r. }
        done.
Qed.

Lemma makedirs_ok exist_ok p t t' :
  makedirs exist_ok p t = (t', None) →
  (kindp t p = None ∨ exist_ok = true) ∧
  (kindp t p = None → lookup_path t' p = Some (Dir ∅)) ∧
  ∀ q, kindp t' q =
       match kindp t q with
       | Some k => Some k
       | None => if decide (q `prefix_of` p) then Some KDir else None
       end.
Proof.
  intros Hm. unfold makedirs in Hm.
  destruct (makedirs_prefix_spec exist_ok p (length p) ltac:(done) t) as [_ H].
  specialize (H t' Hm). by rewrite firstn_all in H.
Qed.

(** ** copy2, remove, rmdir *)

Lemma update_at_reached p f o :
  is_Some (lookup_path o p) → (update_at p f o).2 = (f (lookup_path o p)).2.
Proof.
  revert o. induction p as [|x p IH]; intros o Hs; [done|].
  simpl in *. destruct o as [[d|cs]|]; [by destruct Hs..| |by destruct Hs].
  specialize (IH _ Hs). by destruct (update_at p f (cs !! x)).
Qed.

Lemma prefix_of_cases (p q : path) : p `prefix_of` q ∨ ¬ p `prefix_of` q.
Proof. destruct (decide (p `prefix_of` q)); auto. Qed.

Lemma copy2_ok src sp dp t t' :
  copy2 src sp dp t = (t', None) →
  ∃ d, lookup_path src sp = Some (File d) ∧
       kindp t (copy2_target t sp dp) ≠ Some KDir ∧
       lookup_path t' (copy2_target t sp dp) = Some (File d) ∧
       ∀ q, q ≠ copy2_target t sp dp → kindp t' q = kindp t q.
Proof.
  unfold copy2, copy2_target. intros Hc.
  destruct (lookup_path src sp) as [[d|scs]|] eqn:Hsrc; [|done..].
  exists d. split; [done|].
  pose proof (update_at_frame dp (copy2_entry d (basename sp)) t) as Hfr.
  rewrite Hc in Hfr. simpl in Hfr.
  apply update_at_ok in Hc as [He Hl]. unfold isdir, kindp in *.
  destruct (lookup_path t dp) as [[d0|sub]|] eqn:Hdp; simpl in *.
  - split; [by rewrite Hdp|]. split; [by rewrite <-(app_nil_r dp), Hl|].
    intros q Hq. destruct (prefix_of_cases dp q) as [[r ->]|Hn]; [|by apply Hfr].
    rewrite Hl, lookup_path_app, Hdp. destruct r as [|y r]; [by rewrite app_nil_r in Hq|done].
  - rewrite lookup_path_app, Hdp. simpl.
    destruct (sub !! basename sp) as [[d1|sub1]|] eqn:Hb; simpl in *; [|done|].
    + split; [done|]. split; [by rewrite Hl; simpl; rewrite lookup_insert_eq|].
      intros q Hq. destruct (prefix_of_cases dp q) as [[r ->]|Hn]; [|by apply Hfr].
      rewrite Hl, lookup_path_app, Hdp. destruct r as [|y r]; [done|]. simpl.
      destruct (decide (basename sp = y)) as [<-|Hne].
      * rewrite lookup_insert_eq, Hb. destruct r; [done|]. done.
      * by rewrite lookup_insert_ne.
    + split; [done|]. split; [by rewrite Hl; simpl; rewrite lookup_insert_eq|].
      intros q Hq. destruct (prefix_of_cases dp q) as [[r ->]|Hn]; [|by apply Hfr].
      rewrite Hl, lookup_path_app, Hdp. destruct r as [|y r]; [done|]. simpl.
      destruct (decide (basename sp = y)) as [<-|Hne].
      * rewrite lookup_insert_eq, Hb. destruct r; [done|]. by rewrite lookup_path_None.
      * by rewrite lookup_insert_ne.
  - split; [by rewrite Hdp|]. split; [by rewrite <-(app_nil_r dp), Hl|].
    intros q Hq. destruct (prefix_of_cases dp q) as [[r ->]|Hn]; [|by apply Hfr].
    rewrite Hl, lookup_path_app, Hdp. destruct r as [|y r]; [by rewrite app_nil_r in Hq|].
    by rewrite lookup_path_None.
Qed.

Lemma remove_ok p t t' :
  remove p t = (t', None) →
  kindp t p = Some KFile ∧
  ∀ q, kindp t' q = if decide (q = p) then None else kindp t q.
Proof.
  unfold remove. intros Hc.
  pose proof (update_at_frame p remove_entry t) as Hfr.
  rewrite Hc in Hfr. simpl in Hfr.
  apply update_at_ok in Hc as [He Hl]. unfold kindp in *.
  destruct (lookup_path t p) as [[d0|sub]|] eqn:Hp; simpl in *; [|done..].
  split; [done|]. intros q. case_decide as Hq.
  - subst q. by rewrite <-(app_nil_r p), Hl.
  - destruct (prefix_of_cases p q) as [[r ->]|Hn]; [|by apply Hfr].
    rewrite Hl, lookup_path_app, Hp. destruct r as [|y r]; [by rewrite app_nil_r in Hq|done].
Qed.

Lemma rmdir_ok p t t' :
  rmdir p t = (t', None) →
  lookup_path t p = Some (Dir ∅) ∧
  ∀ q, kindp t' q = if decide (q = p) then None else kindp t q.
Proof.
  unfold rmdir. intros Hc.
  pose proof (update_at_frame p rmdir_entry t) as Hfr.
  rewrite Hc in Hfr. simpl in Hfr.
  apply update_at_ok in Hc as [He Hl]. unfold kindp in *.
  destruct (lookup_path t p) as [[d0|sub]|] eqn:Hp; simpl in *; [done| |done].
  destruct (decide (size sub = 0)) as [Hsz|]; [|done].
  apply map_size_empty_iff in Hsz as ->.
  split; [done|]. intros q. case_decide as Hq.
  - subst q. by rewrite <-(app_nil_r p), Hl.
  - destruct (prefix_of_cases p q) as [[r ->]|Hn]; [|by apply Hfr].
    rewrite Hl, lookup_path_app, Hp. destruct r as [|y r]; [by rewrite app_nil_r in Hq|].
    simpl. by rewrite lookup_empty, !lookup_path_None.
Qed.

(** [rmdir] on a directory that still has an entry fails. *)
Lemma rmdir_nonempty p t cs :
  lookup_path t p = Some (Dir cs) → cs ≠ ∅ → (rmdir p t).2 = Some OSError_ENOTEMPTY.
Proof.
  intros Hp Hne. unfold rmdir. rewrite update_at_reached by (rewrite Hp; eauto).
  rewrite Hp. simpl. destruct (decide (size cs = 0)) as [Hsz|]; [|done].
  by apply map_size_empty_iff in Hsz.
Qed.

(** ** copytree *)

Lemma copytree_node_Dir scs o :
  copytree_node (Dir scs) o =
  match o with
  | Some (File _) => (o, Some FileExistsError)
  | _ => let r := fold_entries scs (children_of o) in
         (Some (Dir r.1), if r.2 then Some shutil_Error else None)
  end.
Proof. by destruct o as [[d|dcs]|]. Qed.

Lemma children_of_lookup o x :
  kind_of o ≠ Some KFile → children_of o !! x = lookup_path o [x].
Proof. destruct o as [[d|dcs]|]; simpl; [done|done|]. by rewrite lookup_empty. Qed.

(** Every source entry is handled once, and only the destination entry of
    the same name is touched. *)
Lemma fold_entries_spec scs dcs :
  (∀ x, (fold_entries scs dcs).1 !! x =
        match scs !! x with
        | Some c => (entry_step x c (dcs !! x)).1
        | None => dcs !! x
        end) ∧
  ((fold_entries scs dcs).2 = false ↔
   ∀ x c, scs !! x = Some c → (entry_step x c (dcs !! x)).2 = None).
Proof.
  unfold fold_entries.
  apply (map_fold_weak_ind (λ (r : gmap string node * bool) (m : gmap string node),
    (∀ x, r.1 !! x = match m !! x with
                     | Some c => (entry_step x c (dcs !! x)).1
                     | None => dcs !! x
                     end) ∧
    (r.2 = false ↔ ∀ x c, m !! x = Some c → (entry_step x c (dcs !! x)).2 = None))).
  - simpl. split; [intros x; by rewrite lookup_empty|].
    split; [|done]. intros _ x c. by rewrite lookup_empty.
  - intros i c m r Hi [IH1 IH2].
    assert (r.1 !! i = dcs !! i) as Hri by by rewrite IH1, Hi.
    rewrite Hri. destruct (entry_step i c (dcs !! i)) as [o' e] eqn:Hstep. simpl. split.
    + intros x. destruct (decide (i = x)) as [<-|Hne].
      * by rewrite lookup_partial_alter_eq, lookup_insert_eq, Hstep.
      * by rewrite lookup_partial_alter_ne, lookup_insert_ne, IH1.
    + rewrite orb_false_iff, IH2. split.
      * intros [Hm He] x c'. destruct (decide (i = x)) as [<-|Hne].
        -- rewrite lookup_insert_eq. intros [= <-]. rewrite Hstep. simpl.
           destruct e; [|done]. apply bool_decide_eq_false in He. destruct He. eauto.
        -- rewrite lookup_insert_ne by done. apply Hm.
      * intros Hall. split.
        -- intros x c' Hx. apply Hall. rewrite lookup_insert_ne; [done|]. intros <-. congruence.
        -- specialize (Hall i c). rewrite lookup_insert_eq, Hstep in Hall.
           simpl in Hall. rewrite Hall by done. apply bool_decide_eq_false. by intros [? ?].
Qed.

Lemma copy2_entry_mono d x o q k :
  kindp o q = Some k → kindp (copy2_entry d x o).1 q = Some k.
Proof.
  unfold kindp. destruct o as [[d0|sub]|]; simpl.
  - destruct q; [|done]. done.
  - destruct (sub !! x) as [[d1|sub1]|] eqn:Hx; simpl; [|done|].
    + destruct q as [|y q]; [done|]. simpl. destruct (decide (x = y)) as [<-|Hne].
      * rewrite lookup_insert_eq, Hx. by destruct q.
      * by rewrite lookup_insert_ne.
    + destruct q as [|y q]; [done|]. simpl. destruct (decide (x = y)) as [<-|Hne].
      * rewrite lookup_insert_eq, Hx. by rewrite lookup_path_None.
      * by rewrite lookup_insert_ne.
  - by rewrite lookup_path_None.
Qed.

(** Merging: whatever the destination had, it still has, with its kind. *)
Lemma copytree_node_mono s : ∀ o q k,
  kindp o q = Some k → kindp (copytree_node s o).1 q = Some k.
Proof.
  induction s as [d|scs IH] using node_ind'; intros o q k Hk; [done|].
  rewrite copytree_node_Dir. destruct o as [[d0|dcs]|]; [done| |].
  - simpl. destruct q as [|x q]; [done|].
    unfold kindp in *. simpl in *.
    destruct (fold_entries_spec scs dcs) as [Hl _]. rewrite Hl.
    destruct (scs !! x) as [c|] eqn:Hx; [|done].
    destruct c as [d1|scs1]; simpl.
    + by apply copy2_entry_mono.
    + by apply (IH x (Dir scs1) Hx).
  - unfold kindp in Hk. by rewrite lookup_path_None in Hk.
Qed.

Lemma lookup_path_children o x q :
  kind_of o ≠ Some KFile → lookup_path o (x :: q) = lookup_path (children_of o !! x) q.
Proof.
  destruct o as [[d|dcs]|]; simpl; [done|done|].
  by rewrite lookup_empty, lookup_path_None.
Qed.

Lemma copy2_entry_new d x o q k :
  kindp (copy2_entry d x o).1 q = Some k →
  kindp o q = Some k ∨ (q = [] ∧ k = KFile) ∨ (q = [x] ∧ k = KFile ∧ kind_of o = Some KDir).
Proof.
  unfold kindp. destruct o as [[d0|sub]|]; simpl.
  - destruct q; simpl; [|done]. intros [= <-]. auto.
  - destruct (sub !! x) as [[d1|sub1]|] eqn:Hx; simpl; [|by left|].
    + destruct q as [|y q]; [by left|]. simpl. destruct (decide (x = y)) as [<-|Hne].
      * rewrite lookup_insert_eq. destruct q; simpl; [|done]. intros [= <-]. auto.
      * rewrite lookup_insert_ne by done. by left.
    + destruct q as [|y q]; [by left|]. simpl. destruct (decide (x = y)) as [<-|Hne].
      * rewrite lookup_insert_eq. destruct q; simpl; [|done]. intros [= <-]. auto.
      * rewrite lookup_insert_ne by done. by left.
  - destruct q; simpl; [|done]. intros [= <-]. auto.
Qed.

(** Where a new entry comes from: it mirrors a source entry of the same
    kind, or it is a file that landed inside a destination directory standing
    where the source has a file. *)
Lemma copytree_node_new s : ∀ o q k,
  kindp (copytree_node s o).1 q = Some k →
  kindp o q = Some k ∨ kindp (Some s) q = Some k ∨
  (k = KFile ∧ ∃ r x, q = r ++ [x] ∧ kindp (Some s) r = Some KFile ∧ kindp o r = Some KDir).
Proof.
  induction s as [d|scs IH] using node_ind'; intros o q k Hk; [by left|].
  rewrite copytree_node_Dir in Hk.
  destruct (decide (kind_of o = Some KFile)) as [Hf|Hf].
  { destruct o as [[d0|dcs]|]; [by left|done..]. }
  assert ((copytree_node (Dir scs) o).1 = Some (Dir (fold_entries scs (children_of o)).1)) as Heq.
  { rewrite copytree_node_Dir. by destruct o as [[d0|dcs]|]. }
  rewrite <-copytree_node_Dir, Heq in Hk. clear Heq.
  destruct q as [|x q]; [right; left; by injection Hk as <-|].
  unfold kindp in *. rewrite (lookup_path_children o x q Hf). simpl in *.
  destruct (fold_entries_spec scs (children_of o)) as [Hl _]. rewrite Hl in Hk.
  destruct (scs !! x) as [c|] eqn:Hx; [|by left].
  destruct c as [d1|scs1]; simpl in Hk.
  - apply copy2_entry_new in Hk as [Hk|[[-> ->]|(-> & -> & Hd)]]; [by left|by right; left|].
    right; right. split; [done|]. exists [x], x. split; [done|]. split; [simpl; by rewrite Hx|].
    by rewrite (lookup_path_children o x [] Hf).
  - apply (IH x (Dir scs1) Hx) in Hk as [Hk|[Hk|(-> & r & y & -> & Hs & Hd)]];
      [by left|by right; left|].
    right; right. split; [done|]. exists (x :: r), y. split; [done|]. split; [simpl; by rewrite Hx|].
    by rewrite (lookup_path_children o x r Hf).
Qed.

(** Overwriting: when [copytree] succeeds, every source directory is a
    directory of the destination, and every source file that did not meet a
    directory is in the destination with its data and metadata. *)
Lemma copytree_node_copied s : ∀ o o',
  copytree_node s o = (o', None) →
  (∀ q, kindp (Some s) q = Some KDir → kindp o' q = Some KDir) ∧
  (∀ q d, lookup_path (Some s) q = Some (File d) → kindp o q ≠ Some KDir →
          lookup_path o' q = Some (File d)).
Proof.
  induction s as [d|scs IH] using node_ind'; intros o o' Hc; [done|].
  rewrite copytree_node_Dir in Hc.
  destruct (decide (kind_of o = Some KFile)) as [Hf|Hf].
  { destruct o as [[d0|dcs]|]; done. }
  destruct (fold_entries_spec scs (children_of o)) as [Hl He].
  assert (o' = Some (Dir (fold_entries scs (children_of o)).1) ∧
          (fold_entries scs (children_of o)).2 = false) as [-> Hok].
  { destruct o as [[d0|dcs]|]; [done|..]; simpl in Hc;
      destruct (fold_entries _ _).2; by simplify_eq. }
  clear Hc. destruct He as [He _]. specialize (He Hok). clear Hok. rename He into Hok. split.
  - intros [|x q]; [done|]. unfold kindp. simpl. rewrite Hl.
    destruct (scs !! x) as [c|] eqn:Hx; [|by rewrite lookup_path_None].
    destruct c as [d1|scs1]; [by destruct q|]. intros Hk.
    specialize (Hok x _ Hx). unfold entry_step in *.
    destruct (copytree_node (Dir scs1) (children_of o !! x)) as [o1 e1] eqn:Hc1.
    cbn [fst snd] in *. subst e1. by apply (IH x _ Hx _ _ Hc1).
  - intros [|x q] d; [done|]. simpl. rewrite Hl.
    destruct (scs !! x) as [c|] eqn:Hx; [|by rewrite lookup_path_None].
    unfold kindp. rewrite (lookup_path_children o x q Hf).
    destruct c as [d1|scs1].
    + destruct q; [|done]. simpl. intros [= ->] Hnd.
      by destruct (children_of o !! x) as [[d2|sub]|].
    + intros Hs Hnd. specialize (Hok x _ Hx). unfold entry_step in *.
      destruct (copytree_node (Dir scs1) (children_of o !! x)) as [o1 e1] eqn:Hc1.
      cbn [fst snd] in *. subst e1. by apply (IH x _ Hx _ _ Hc1).
Qed.

(* ===================================================================== *)
(** * How the calls of a pass change the destination *)
(* ===================================================================== *)

Lemma grows_refl src t : grows src t t.
Proof. split; auto. Qed.

Lemma grows_trans src t1 t2 t3 : grows src t1 t2 → grows src t2 t3 → grows src t1 t3.
Proof.
  intros [Hm1 Ho1] [Hm2 Ho2]. split; [auto|].
  intros q k Hk. apply Ho2 in Hk as [Hk|[Hk|(-> & r & x & -> & Hs & Hd)]]; [auto|auto|].
  apply Ho1 in Hd as [Hd|[Hd|(? & _)]]; [|congruence|done].
  right; right. split; [done|]. by exists r, x.
Qed.

Lemma makedirs_grows src exist_ok p t t' :
  kindp src p = Some KDir → makedirs exist_ok p t = (t', None) → grows src t t'.
Proof.
  intros Hsrc (_ & _ & Hk)%makedirs_ok. split.
  - intros q k Hq. by rewrite Hk, Hq.
  - intros q k. rewrite Hk. destruct (kindp t q) eqn:Hq; [auto|].
    case_decide as Hpre; [|done]. intros [= <-]. right; left.
    destruct (decide (q = p)) as [->|Hne]; [done|].
    eapply lookup_path_prefix_dir; [done..|]. apply kindp_is_Some. by rewrite Hsrc.
Qed.

Lemma copy2_grows src p t t' : copy2 src p p t = (t', None) → grows src t t'.
Proof.
  intros (d & Hsrc & Hnd & Hnew & Hfr)%copy2_ok. split.
  - intros q k Hq. destruct (decide (q = copy2_target t p p)) as [->|Hne].
    + unfold kindp at 1. rewrite Hnew. simpl. destruct k; [done|congruence].
    + by rewrite Hfr.
  - intros q k Hq. destruct (decide (q = copy2_target t p p)) as [->|Hne].
    + unfold kindp in Hq at 1. rewrite Hnew in Hq. injection Hq as <-.
      unfold copy2_target. destruct (isdir t p) eqn:Hd.
      * right; right. split; [done|]. exists p, (basename p). split; [done|].
        split; [by unfold kindp; rewrite Hsrc|by apply isdir_kindp].
      * right; left. by unfold kindp; rewrite Hsrc.
    + left. by rewrite <-Hfr.
Qed.

Lemma update_copytree_grows src p scs t t' :
  lookup_path src p = Some (Dir scs) →
  update_at p (copytree_node (Dir scs)) t = (t', None) → grows src t t'.
Proof.
  intros Hsrc Hu.
  pose proof (update_at_frame p (copytree_node (Dir scs)) t) as Hfr.
  rewrite Hu in Hfr. simpl in Hfr.
  apply update_at_ok in Hu as [_ Hl]. split.
  - intros q k Hq. destruct (prefix_of_cases p q) as [[r ->]|Hn]; [|by rewrite Hfr].
    unfold kindp at 1. rewrite Hl. apply copytree_node_mono. by rewrite <-kindp_app.
  - intros q k Hq. destruct (prefix_of_cases p q) as [[r ->]|Hn]; [|left; by rewrite <-Hfr].
    unfold kindp in Hq at 1. rewrite Hl in Hq.
    apply copytree_node_new in Hq as [Hq|[Hq|(-> & r' & x & -> & Hs & Hd)]].
    + left. by rewrite kindp_app.
    + right; left. by rewrite kindp_app, Hsrc.
    + right; right. split; [done|]. exists (p ++ r'), x. rewrite app_assoc. split; [done|].
      by rewrite !kindp_app, Hsrc.
Qed.

Lemma copytree_grows src p t t' : copytree src p p t = (t', None) → grows src t t'.
Proof.
  unfold copytree. intros Hc.
  destruct (lookup_path src p) as [[d|scs]|] eqn:Hsrc; [done| |done].
  destruct (makedirs true p t) as [t1 [e1|]] eqn:Hm; [done|].
  eapply grows_trans.
  - eapply makedirs_grows; [|done]. by unfold kindp; rewrite Hsrc.
  - by eapply update_copytree_grows.
Qed.

(* ===================================================================== *)
(** * sorted *)
(* ===================================================================== *)

Lemma insert_by_perm {A} (key : A → nat) x l : insert_by key x l ≡ₚ x :: l.
Proof.
  induction l as [|y l IH]; [done|]. simpl. case_decide; [done|].
  rewrite IH. apply Permutation_swap.
Qed.

Lemma sort_by_perm {A} (key : A → nat) l : sort_by key l ≡ₚ l.
Proof.
  induction l as [|x l IH]; [done|]. simpl. by rewrite insert_by_perm, IH.
Qed.

Lemma insert_by_sorted {A} (key : A → nat) x l :
  StronglySorted (le_key key) l → StronglySorted (le_key key) (insert_by key x l).
Proof.
  induction 1 as [|y l Hs IH Hall]; simpl; [by repeat constructor|].
  case_decide as Hxy.
  - constructor; [by constructor|]. constructor; [done|].
    eapply Forall_impl; [done|]. unfold le_key. intros z Hz. simpl in *. lia.
  - constructor; [done|]. rewrite insert_by_perm. constructor; [|done].
    unfold le_key. lia.
Qed.

Lemma sort_by_sorted {A} (key : A → nat) l : StronglySorted (le_key key) (sort_by key l).
Proof. induction l; simpl; [constructor|by apply insert_by_sorted]. Qed.

Lemma StronglySorted_split {A} (R : relation A) l1 x l2 :
  StronglySorted R (l1 ++ x :: l2) → Forall (λ y, R y x) l1 ∧ Forall (R x) l2.
Proof.
  induction l1 as [|y l1 IH]; simpl; intros Hs.
  - apply StronglySorted_inv in Hs as [_ Hall]. by split.
  - apply StronglySorted_inv in Hs as [Hs Hall]. destruct (IH Hs) as [H1 H2].
    split; [|done]. constructor; [|done].
    rewrite Forall_app, Forall_cons in Hall. by destruct Hall as (_ & ? & _).
Qed.

Lemma sorted_perm {A} (key : A → nat) l rev_ : sorted l key rev_ ≡ₚ l.
Proof.
  unfold sorted. destruct rev_; [|apply sort_by_perm].
  by rewrite reverse_Permutation, sort_by_perm, reverse_Permutation.
Qed.

(** Ascending: keys never decrease along the result. *)
Lemma sorted_ascending {A} (key : A → nat) l l1 p l2 :
  sorted l key false = l1 ++ p :: l2 →
  Forall (λ q, key q ≤ key p) l1 ∧ Forall (λ q, key p ≤ key q) l2.
Proof.
  unfold sorted. intros Heq. pose proof (sort_by_sorted key l) as Hs. rewrite Heq in Hs.
  by apply StronglySorted_split in Hs.
Qed.

(** Descending: keys never increase along the result. *)
Lemma sorted_descending {A} (key : A → nat) l l1 p l2 :
  sorted l key true = l1 ++ p :: l2 →
  Forall (λ q, key p ≤ key q) l1 ∧ Forall (λ q, key q ≤ key p) l2.
Proof.
  unfold sorted. intros Heq. pose proof (sort_by_sorted key (reverse l)) as Hs.
  apply (f_equal reverse) in Heq. rewrite reverse_involutive, reverse_app, reverse_cons in Heq.
  rewrite <-app_assoc in Heq. simpl in Heq. rewrite Heq in Hs.
  apply StronglySorted_split in Hs as [H1 H2].
  rewrite Forall_reverse in H1, H2. by split.
Qed.

Lemma sorted_ascending_before {A} (key : A → nat) l l1 p l2 q :
  sorted l key false = l1 ++ p :: l2 → q ∈ l → key q < key p → q ∈ l1.
Proof.
  intros Heq Hq Hlt. destruct (sorted_ascending _ _ _ _ _ Heq) as [_ H2].
  rewrite <-(sorted_perm key l false), Heq in Hq.
  apply elem_of_app in Hq as [?|Hq]; [done|].
  apply elem_of_cons in Hq as [->|Hq]; [lia|].
  rewrite Forall_forall in H2. apply H2 in Hq. lia.
Qed.

Lemma sorted_descending_before {A} (key : A → nat) l l1 p l2 q :
  sorted l key true = l1 ++ p :: l2 → q ∈ l → key p < key q → q ∈ l1.
Proof.
  intros Heq Hq Hlt. destruct (sorted_descending _ _ _ _ _ Heq) as [_ H2].
  rewrite <-(sorted_perm key l true), Heq in Hq.
  apply elem_of_app in Hq as [?|Hq]; [done|].
  apply elem_of_cons in Hq as [->|Hq]; [lia|].
  rewrite Forall_forall in H2. apply H2 in Hq. lia.
Qed.

(* ===================================================================== *)
(** * Running the loops *)
(* ===================================================================== *)

Lemma bind_Ok {A B} (m : M A) (k : A → M B) st b st' :
  (m ≫= k) st = (Ok b, st') ↔ ∃ a st1, m st = (Ok a, st1) ∧ k a st1 = (Ok b, st').
Proof.
  unfold mbind, M_bind. destruct (m st) as [[a|e] st1]; split.
  - intros Hk. by exists a, st1.
  - by intros (a' & st1' & [= <- <-] & Hk).
  - done.
  - by intros (a' & st1' & [=] & _).
Qed.

Lemma bind_Raise {A B} (m : M A) (k : A → M B) st e st' :
  (m ≫= k) st = (Raise e, st') ↔
  m st = (Raise e, st') ∨ ∃ a st1, m st = (Ok a, st1) ∧ k a st1 = (Raise e, st').
Proof.
  unfold mbind, M_bind. destruct (m st) as [[a|e0] st1]; split.
  - intros Hk. right. by exists a, st1.
  - intros [|(a' & st1' & [= <- <-] & Hk)]; done.
  - intros [= <- <-]. by left.
  - intros [[= <- <-]|(a' & st1' & [=] & _)]. done.
Qed.

Lemma for_each_app {A} (l1 l2 : list A) body st :
  for_each (l1 ++ l2) body st =
  match for_each l1 body st with
  | (Ok _, st1) => for_each l2 body st1
  | (Raise e, st1) => (Raise e, st1)
  end.
Proof.
  revert st. induction l1 as [|x l1 IH]; intros st; [done|].
  simpl. unfold mbind, M_bind. destruct (body x st) as [[[]|e] st1]; [apply IH|done].
Qed.

Lemma for_each_cons_Ok {A} (x : A) l body st st' :
  for_each (x :: l) body st = (Ok tt, st') ↔
  ∃ st1, body x st = (Ok tt, st1) ∧ for_each l body st1 = (Ok tt, st').
Proof.
  simpl. rewrite bind_Ok. split.
  - intros ([] & st1 & ? & ?). eauto.
  - intros (st1 & ? & ?). by exists tt, st1.
Qed.

(** A property that every successful turn of the body carries over holds at
    the end of a successful loop. *)
Lemma for_each_invariant {A} (P : state → Prop) (l : list A) body st st' :
  (∀ x s s', x ∈ l → P s → body x s = (Ok tt, s') → P s') →
  P st → for_each l body st = (Ok tt, st') → P st'.
Proof.
  revert st. induction l as [|x l IH]; intros st Hstep HP Hrun.
  { by injection Hrun as <-. }
  apply for_each_cons_Ok in Hrun as (st1 & Hx & Hrun).
  eapply IH; [|eapply Hstep; [|done..]|done]; [|by left].
  intros y s s' Hy. apply Hstep. by right.
Qed.

Lemma exec_Ok src c st st' :
  exec src c st = (Ok tt, st') ↔
  run_call src c (tree st) = (tree st', None) ∧ calls st' = calls st ++ [c].
Proof.
  unfold exec. destruct (run_call src c (tree st)) as [t' [e|]]; split.
  - done.
  - by intros [[=] _].
  - by intros [= <-].
  - intros [[= ->] Hc]. destruct st' as [t'' cs']. simpl in *. by subst.
Qed.

Lemma exec_Raise src c st e st' :
  exec src c st = (Raise e, st') ↔
  run_call src c (tree st) = (tree st', Some e) ∧ calls st' = calls st ++ [c].
Proof.
  unfold exec. destruct (run_call src c (tree st)) as [t' [e'|]]; split.
  - by intros [= <- <-].
  - intros [[= -> ->] Hc]. destruct st' as [t'' cs']. simpl in *. by subst.
  - done.
  - by intros [[=] _].
Qed.

Lemma create_body_exec src p : create_body src p = exec src (create_call src p).
Proof. unfold create_body, create_call. by destruct (isdir src p). Qed.

Lemma copy_body_exec src p : copy_body src p = exec src (copy_call src p).
Proof. unfold copy_body, copy_call. by destruct (isdir src p). Qed.

Lemma remove_body_exec src p st :
  remove_body src p st = exec src (remove_call (tree st) p) st.
Proof.
  unfold remove_body, remove_call, mbind, M_bind, gets. by destruct (isdir (tree st) p).
Qed.

Lemma create_body_Ok src p st st' :
  create_body src p st = (Ok tt, st') →
  grows src (tree st) (tree st') ∧ is_Some (kindp (tree st') p).
Proof.
  rewrite create_body_exec, exec_Ok. unfold create_call. intros [Hrun _].
  destruct (isdir src p) eqn:Hd; simpl in Hrun.
  - apply isdir_kindp in Hd. split; [by eapply makedirs_grows|].
    apply makedirs_ok in Hrun as (_ & _ & Hk). rewrite Hk.
    destruct (kindp (tree st) p); [eauto|]. rewrite decide_True; eauto.
  - split; [by eapply copy2_grows|].
    pose proof (copy2_grows _ _ _ _ Hrun) as [Hmono _].
    apply copy2_ok in Hrun as (d & _ & _ & Hnew & _).
    unfold copy2_target in Hnew. destruct (isdir (tree st) p) eqn:Hdp.
    + apply isdir_kindp in Hdp. apply Hmono in Hdp. rewrite Hdp. eauto.
    + unfold kindp. rewrite Hnew. eauto.
Qed.

Lemma copy_body_Ok src p st st' :
  copy_body src p st = (Ok tt, st') → grows src (tree st) (tree st').
Proof.
  rewrite copy_body_exec, exec_Ok. unfold copy_call. intros [Hrun _].
  destruct (isdir src p); simpl in Hrun.
  - by eapply copytree_grows.
  - by eapply copy2_grows.
Qed.

Lemma remove_body_Ok src p st st' :
  remove_body src p st = (Ok tt, st') →
  (isdir (tree st) p = true → lookup_path (tree st) p = Some (Dir ∅)) ∧
  ∀ q, kindp (tree st') q = if decide (q = p) then None else kindp (tree st) q.
Proof.
  rewrite remove_body_exec, exec_Ok. unfold remove_call. intros [Hrun _].
  destruct (isdir (tree st) p) eqn:Hd; simpl in Hrun.
  - apply rmdir_ok in Hrun as [? ?]. done.
  - apply remove_ok in Hrun as [? ?]. done.
Qed.

Lemma create_phase_Ok src l st st' :
  for_each l (create_body src) st = (Ok tt, st') →
  grows src (tree st) (tree st') ∧ ∀ p, p ∈ l → is_Some (kindp (tree st') p).
Proof.
  revert st. induction l as [|x l IH]; intros st Hrun.
  { injection Hrun as <-. split; [apply grows_refl|]. by intros p ?%elem_of_nil. }
  apply for_each_cons_Ok in Hrun as (st1 & Hx & Hrun).
  apply create_body_Ok in Hx as [Hg1 Hx]. apply IH in Hrun as [Hg2 Hl].
  split; [by eapply grows_trans|]. intros p [->|Hp]%elem_of_cons; [|auto].
  destruct Hx as [k Hk]. destruct Hg2 as [Hmono _]. apply Hmono in Hk. eauto.
Qed.

Lemma copy_phase_Ok src l st st' :
  for_each l (copy_body src) st = (Ok tt, st') → grows src (tree st) (tree st').
Proof.
  intros Hrun.
  eapply (for_each_invariant (λ s, grows src (tree st) (tree s))); [|apply grows_refl|done].
  intros x s s' _ Hg Hb. eapply grows_trans; [done|]. by eapply copy_body_Ok.
Qed.

Lemma remove_phase_Ok src l st st' :
  for_each l (remove_body src) st = (Ok tt, st') →
  ∀ q, kindp (tree st') q = if decide (q ∈ l) then None else kindp (tree st) q.
Proof.
  revert st. induction l as [|x l IH]; intros st Hrun q.
  { injection Hrun as <-. rewrite decide_False; [done|]. by intros ?%elem_of_nil. }
  apply for_each_cons_Ok in Hrun as (st1 & Hx & Hrun).
  apply remove_body_Ok in Hx as [_ Hx]. rewrite (IH _ Hrun), Hx.
  destruct (decide (q = x)) as [->|Hne].
  - rewrite (decide_True (P := x ∈ x :: l)) by by left. by case_decide.
  - destruct (decide (q ∈ l)) as [Hq|Hq].
    + by rewrite decide_True by by right.
    + rewrite decide_False; [done|]. by intros [?|?]%elem_of_cons.
Qed.

(** The three loops of a pass that returns. *)
Lemma synchronize_folders_Ok src st a st' :
  synchronize_folders src st = (Ok a, st') ↔
  a = classify (content_of src) (content_of (tree st)) ∧
  ∃ st1 st2,
    for_each (create_order a) (create_body src) st = (Ok tt, st1) ∧
    for_each (copy_order a) (copy_body src) st1 = (Ok tt, st2) ∧
    for_each (remove_order a) (remove_body src) st2 = (Ok tt, st').
Proof.
  unfold synchronize_folders. rewrite bind_Ok. split.
  - intros (sc & st0 & [= <- <-] & Hrun).
    apply bind_Ok in Hrun as ([] & st1 & H1 & Hrun).
    apply bind_Ok in Hrun as ([] & st2 & H2 & Hrun).
    apply bind_Ok in Hrun as ([] & st3 & H3 & [= <- <-]).
    split; [done|]. by exists st1, st2.
  - intros (-> & st1 & st2 & H1 & H2 & H3).
    exists (content_of (tree st)), st. split; [done|].
    apply bind_Ok. exists tt, st1. split; [done|].
    apply bind_Ok. exists tt, st2. split; [done|].
    apply bind_Ok. by exists tt, st'.
Qed.

Lemma classify_created o s :
  dict_get (classify o s) "created" = elements (list_to_set o ∖ list_to_set s : gset path).
Proof. reflexivity. Qed.

Lemma classify_removed o s :
  dict_get (classify o s) "removed" = elements (list_to_set s ∖ list_to_set o : gset path).
Proof. reflexivity. Qed.

Lemma classify_copied o s :
  dict_get (classify o s) "copied" = elements (list_to_set o ∩ list_to_set s : gset path).
Proof. reflexivity. Qed.

Lemma elem_of_created src dst p :
  p ∈ dict_get (classify (content_of src) (content_of dst)) "created" ↔
  listed src p ∧ ¬ listed dst p.
Proof.
  rewrite classify_created, elem_of_elements, elem_of_difference.
  by rewrite !elem_of_list_to_set, !elem_of_content_of.
Qed.

Lemma elem_of_removed src dst p :
  p ∈ dict_get (classify (content_of src) (content_of dst)) "removed" ↔
  listed dst p ∧ ¬ listed src p.
Proof.
  rewrite classify_removed, elem_of_elements, elem_of_difference.
  by rewrite !elem_of_list_to_set, !elem_of_content_of.
Qed.

Lemma elem_of_copied src dst p :
  p ∈ dict_get (classify (content_of src) (content_of dst)) "copied" ↔
  listed src p ∧ listed dst p.
Proof.
  rewrite classify_copied, elem_of_elements, elem_of_intersection.
  by rewrite !elem_of_list_to_set, !elem_of_content_of.
Qed.

Lemma elem_of_create_order src dst p :
  p ∈ create_order (classify (content_of src) (content_of dst)) ↔
  listed src p ∧ ¬ listed dst p.
Proof. unfold create_order. by rewrite sorted_perm, elem_of_created. Qed.

Lemma elem_of_remove_order src dst p :
  p ∈ remove_order (classify (content_of src) (content_of dst)) ↔
  listed dst p ∧ ¬ listed src p.
Proof. unfold remove_order. by rewrite sorted_perm, elem_of_removed. Qed.

Lemma elem_of_copy_order src dst p :
  p ∈ copy_order (classify (content_of src) (content_of dst)) ↔
  (listed src p ∧ listed dst p) ∧ length p = 1.
Proof.
  unfold copy_order. rewrite list_elem_of_filter, elem_of_copied, depth_length. tauto.
Qed.

(** The journal of a loop: one call per path, in the order of the list, up to
    the turn that raised. *)
Lemma for_each_journal src (mk : option node → path → call) (body : path → M unit) l :
  (∀ x s, body x s = exec src (mk (tree s) x) s) →
  (∀ t x, call_path (mk t x) = x) →
  ∀ st r st', for_each l body st = (r, st') →
    ∃ cs, calls st' = calls st ++ cs ∧
          call_path <$> cs `prefix_of` l ∧
          (r = Ok tt → call_path <$> cs = l) ∧
          Forall (λ c, ∃ t, c = mk t (call_path c)) cs.
Proof.
  intros Hbody Hmk. induction l as [|x l IH]; intros st r st' Hrun.
  { injection Hrun as <- <-. exists []. by rewrite app_nil_r. }
  simpl in Hrun. unfold mbind, M_bind in Hrun.
  destruct (body x st) as [[[]|e] st1] eqn:Hx; rewrite Hbody in Hx.
  - apply exec_Ok in Hx as [_ Hc1]. apply IH in Hrun as (cs & Hcs & Hpre & Hall & HF).
    exists (mk (tree st) x :: cs). rewrite Hcs, Hc1, <-app_assoc. split; [done|].
    rewrite fmap_cons, Hmk. split; [by apply prefix_cons|]. split; [intros ?; f_equal; auto|].
    constructor; [|done]. exists (tree st). by rewrite Hmk.
  - injection Hrun as <- <-. apply exec_Raise in Hx as [_ Hc1].
    exists [mk (tree st) x]. split; [done|]. simpl. rewrite Hmk.
    split; [apply prefix_cons, prefix_nil|]. split; [done|].
    constructor; [|done]. exists (tree st). by rewrite Hmk.
Qed.

Lemma call_path_create src p : call_path (create_call src p) = p.
Proof. unfold create_call. by destruct (isdir src p). Qed.

Lemma call_path_copy src p : call_path (copy_call src p) = p.
Proof. unfold copy_call. by destruct (isdir src p). Qed.

Lemma call_path_remove t p : call_path (remove_call t p) = p.
Proof. unfold remove_call. by destruct (isdir t p). Qed.

Lemma listed_nonroot t : ¬ listed t [].
Proof. by intros [? _]. Qed.

(* ===================================================================== *)
(** * The enumeration and the classification *)
(* ===================================================================== *)

(** C1.  In every pass the three lists of the action dict are, as sets, the
    differences and the intersection of the two enumerations: created is
    source minus destination, removed is destination minus source, copied is
    their intersection; the three are pairwise disjoint and together make up
    the union of the two enumerations.  A pass that returns, returns exactly
    this dict. *)
Theorem C1_partition (src : option node) (st : state) :
  let S : gset path := list_to_set (content_of src) in
  let D : gset path := list_to_set (content_of (tree st)) in
  let actions := classify (content_of src) (content_of (tree st)) in
  let created : gset path := list_to_set (dict_get actions "created") in
  let removed : gset path := list_to_set (dict_get actions "removed") in
  let copied : gset path := list_to_set (dict_get actions "copied") in
  (∀ a st', synchronize_folders src st = (Ok a, st') → a = actions) ∧
  created = S ∖ D ∧ removed = D ∖ S ∧ copied = S ∩ D ∧
  created ## removed ∧ created ## copied ∧ removed ## copied ∧
  created ∪ removed ∪ copied = S ∪ D.
Proof.
  intros S D actions created removed copied.
  assert (created = S ∖ D) as Hc.
  { unfold created, actions. by rewrite classify_created, list_to_set_elements_L. }
  assert (removed = D ∖ S) as Hr.
  { unfold removed, actions. by rewrite classify_removed, list_to_set_elements_L. }
  assert (copied = S ∩ D) as Hi.
  { unfold copied, actions. by rewrite classify_copied, list_to_set_elements_L. }
  split; [by intros a st' [-> _]%synchronize_folders_Ok|].
  rewrite Hc, Hr, Hi. clear Hc Hr Hi. clearbody S D. clear.
  repeat split.
  - apply elem_of_disjoint. intros p. rewrite !elem_of_difference. tauto.
  - apply elem_of_disjoint. intros p. rewrite elem_of_difference, elem_of_intersection. tauto.
  - apply elem_of_disjoint. intros p. rewrite elem_of_difference, elem_of_intersection. tauto.
  - apply set_eq. intros p.
    rewrite !elem_of_union, !elem_of_difference, elem_of_intersection.
    destruct (decide (p ∈ S)), (decide (p ∈ D)); tauto.
Qed.




(* ===================================================================== *)
(** * The log *)
(* ===================================================================== *)

Section Log.

Variable strftime : nat → string.

Lemma log_and_print_key key paths w :
  foldl (λ w action_path,
           let now := strftime (clock w) in
           let action_string := action_string now key action_path in
           print action_string (fwrite action_string w)) w paths
  = World (dst_state w)
          (sync_log w ++ (action_string (strftime (clock w)) key <$> paths))
          (stdout w ++ (action_string (strftime (clock w)) key <$> paths))
          (clock w).
Proof.
  revert w. induction paths as [|p paths IH]; intros w.
  { simpl. rewrite !app_nil_r. by destruct w. }
  simpl. rewrite IH. simpl. by rewrite <-!app_assoc.
Qed.

Lemma log_and_print_spec actions w :
  log_and_print strftime actions w
  = World (dst_state w)
          (sync_log w ++ log_lines (strftime (clock w)) actions)
          (stdout w ++ log_lines (strftime (clock w)) actions)
          (clock w).
Proof.
  unfold log_and_print. revert w. induction actions as [|[key paths] actions IH]; intros w.
  { simpl. rewrite !app_nil_r. by destruct w. }
  simpl. rewrite log_and_print_key, IH. simpl. by rewrite <-!app_assoc.
Qed.

Lemma log_and_print_actions_spec actions w :
  log_and_print_actions strftime actions w
  = World (dst_state w)
          (log_lines (strftime (clock w)) actions)
          (stdout w ++ log_lines (strftime (clock w)) actions)
          (clock w).
Proof. unfold log_and_print_actions. by rewrite log_and_print_spec. Qed.

Lemma log_lines_classify now o s :
  log_lines now (classify o s)
  = (action_string now "created" <$> dict_get (classify o s) "created") ++
    (action_string now "removed" <$> dict_get (classify o s) "removed") ++
    (action_string now "copied" <$> dict_get (classify o s) "copied").
Proof. unfold log_lines. simpl. by rewrite app_nil_r. Qed.

(** C2, amended.  The log written by [log_and_print_actions] has one line
    per path of the action dict, in the order of the dict: all created lines,
    then all removed lines, then all copied lines, the copied paths of every
    depth included, each group in the order of its list. *)
Theorem C2_log_order (src : option node) (w : world) :
  let actions := classify (content_of src) (content_of (tree (dst_state w))) in
  let now := strftime (clock w) in
  sync_log (log_and_print_actions strftime actions w)
  = (action_string now "created" <$> dict_get actions "created") ++
    (action_string now "removed" <$> dict_get actions "removed") ++
    (action_string now "copied" <$> dict_get actions "copied").
Proof.
  intros actions now. rewrite log_and_print_actions_spec. simpl.
  apply log_lines_classify.
Qed.

(** C8.  Whatever [sync_log.txt] held, after [log_and_print_actions] it
    holds the lines of this call only, so after two passes one after the
    other it holds the lines of the second; within a call every line is
    appended to what the call has written so far. *)
Theorem C8_log_truncated (src : option node) (original_path synchronized_path : string)
    (interval : nat) (w w1 w2 : world) :
  pass strftime src original_path synchronized_path interval w = (Ok tt, w1) →
  pass strftime src original_path synchronized_path interval w1 = (Ok tt, w2) →
  ∃ actions2 st2,
    synchronize_folders src (dst_state w1) = (Ok actions2, st2) ∧
    sync_log w2 = log_lines (strftime (clock w1)) actions2 ∧
    (∀ actions w0,
       sync_log (log_and_print_actions strftime actions w0)
       = log_lines (strftime (clock w0)) actions) ∧
    (∀ actions w0,
       sync_log (log_and_print strftime actions w0)
       = sync_log w0 ++ log_lines (strftime (clock w0)) actions) ∧
    (∀ key p paths w0,
       sync_log (log_and_print strftime [(key, p :: paths)] w0)
       = sync_log (log_and_print strftime [(key, paths)]
                     (print (action_string (strftime (clock w0)) key p)
                        (fwrite (action_string (strftime (clock w0)) key p) w0)))).
Proof.
  intros _ H2. unfold pass in H2.
  destruct (synchronize_folders src _) as [[actions2|e] st2] eqn:Hs; [|done].
  injection H2 as <-. exists actions2, st2. split; [done|].
  split; [by rewrite log_and_print_actions_spec|].
  split; [intros; by rewrite log_and_print_actions_spec|].
  split; [intros; by rewrite log_and_print_spec|]. done.
Qed.

End Log.

(** C2, as the specification states it, fails: the pass returns, its log has a line
    for the depth-2 copied path, and the removed line comes before the copied
    lines. *)
Lemma C2_log_differs :
  let r := pass noon log_src "src" "dst" 60 log_world in
  let actions := classify (content_of log_src) (content_of log_dst) in
  r.1 = Ok tt ∧
  sync_log r.2 ≠ specified_log (noon 0) actions ∧
  sync_log r.2 !! 1 = Some "2024-01-01 12:00:00 Removed file with file path b.txt" ∧
  specified_log (noon 0) actions !! 1 = Some "2024-01-01 12:00:00 Copied file with file path d" ∧
  length (sync_log r.2) = 4 ∧ length (specified_log (noon 0) actions) = 3.
Proof.
  vm_compute. split; [reflexivity|]. split; [intros H; discriminate H|]. repeat split.
Qed.

Lemma C8_log_truncated_witness :
  let r1 := pass noon log_src "src" "dst" 60 log_world in
  let r2 := pass noon log_src "src" "dst" 60 r1.2 in
  pass noon log_src "src" "dst" 60 log_world = (Ok tt, r1.2) ∧
  pass noon log_src "src" "dst" 60 r1.2 = (Ok tt, r2.2) ∧
  ∃ actions2 st2,
    synchronize_folders log_src (dst_state r1.2) = (Ok actions2, st2) ∧
    sync_log r2.2 = log_lines (noon (clock r1.2)) actions2 ∧
    (∀ actions w0,
       sync_log (log_and_print_actions noon actions w0)
       = log_lines (noon (clock w0)) actions) ∧
    (∀ actions w0,
       sync_log (log_and_print noon actions w0)
       = sync_log w0 ++ log_lines (noon (clock w0)) actions) ∧
    (∀ key p paths w0,
       sync_log (log_and_print noon [(key, p :: paths)] w0)
       = sync_log (log_and_print noon [(key, paths)]
                     (print (action_string (noon (clock w0)) key p)
                        (fwrite (action_string (noon (clock w0)) key p) w0)))).
Proof.
  intros r1 r2.
  assert (pass noon log_src "src" "dst" 60 log_world = (Ok tt, r1.2)) as H1
    by (vm_compute; reflexivity).
  assert (pass noon log_src "src" "dst" 60 r1.2 = (Ok tt, r2.2)) as H2
    by (vm_compute; reflexivity).
  split; [exact H1|]. split; [exact H2|].
  exact (C8_log_truncated noon log_src "src" "dst" 60 log_world r1.2 r2.2 H1 H2).
Defined.

(* ===================================================================== *)
(** * The journal of a pass *)
(* ===================================================================== *)

Lemma journal_const (mk : path → call) (cs : list call) (l : list path) :
  call_path <$> cs `prefix_of` l →
  Forall (λ c, c = mk (call_path c)) cs →
  cs = mk <$> take (length cs) l.
Proof.
  intros [l' ->] HF.
  rewrite take_app_length' by by rewrite length_fmap.
  rewrite <-list_fmap_compose. rewrite <-(list_fmap_id cs) at 1.
  apply Forall_fmap_ext_1. eapply Forall_impl; [done|]. intros c Hc. exact Hc.
Qed.

(** Every call of a pass, whatever its outcome: the created paths in their
    order, then the depth-1 copied paths, then the removed paths in theirs,
    cut where an exception was raised. *)
Lemma pass_journal src st r st' :
  synchronize_folders src st = (r, st') →
  let actions := classify (content_of src) (content_of (tree st)) in
  ∃ cs1 cs2 cs3,
    calls st' = calls st ++ cs1 ++ cs2 ++ cs3 ∧
    cs1 = create_call src <$> take (length cs1) (create_order actions) ∧
    cs2 = copy_call src <$> take (length cs2) (copy_order actions) ∧
    call_path <$> cs3 = take (length cs3) (remove_order actions) ∧
    Forall (λ c, ∃ t, c = remove_call t (call_path c)) cs3 ∧
    (∀ a, r = Ok a →
       length cs1 = length (create_order actions) ∧
       length cs2 = length (copy_order actions) ∧
       length cs3 = length (remove_order actions)).
Proof.
  intros Hrun actions. unfold synchronize_folders, mbind at 1, M_bind, gets in Hrun.
  fold actions in Hrun. unfold mbind, M_bind in Hrun.
  destruct (for_each (create_order actions) (create_body src) st) as [r1 st1] eqn:E1.
  destruct (for_each_journal src (λ _, create_call src) _ _
              (λ x s, f_equal (λ f, f s) (create_body_exec src x))
              (λ _, call_path_create src) _ _ _ E1) as (cs1 & Hc1 & Hp1 & Hf1 & HF1).
  assert (cs1 = create_call src <$> take (length cs1) (create_order actions)) as Hcs1.
  { apply journal_const; [done|]. eapply Forall_impl; [done|]. by intros c [_ ?]. }
  destruct r1 as [[]|e1].
  2:{ injection Hrun as <- <-. exists cs1, [], []. rewrite !app_nil_r. by repeat split. }
  destruct (for_each (copy_order actions) (copy_body src) st1) as [r2 st2] eqn:E2.
  destruct (for_each_journal src (λ _, copy_call src) _ _
              (λ x s, f_equal (λ f, f s) (copy_body_exec src x))
              (λ _, call_path_copy src) _ _ _ E2) as (cs2 & Hc2 & Hp2 & Hf2 & HF2).
  assert (cs2 = copy_call src <$> take (length cs2) (copy_order actions)) as Hcs2.
  { apply journal_const; [done|]. eapply Forall_impl; [done|]. by intros c [_ ?]. }
  destruct r2 as [[]|e2].
  2:{ injection Hrun as <- <-. exists cs1, cs2, []. rewrite Hc2, Hc1, !app_nil_r, <-app_assoc.
      by repeat split. }
  destruct (for_each (remove_order actions) (remove_body src) st2) as [r3 st3] eqn:E3.
  destruct (for_each_journal src remove_call _ _ (remove_body_exec src)
              call_path_remove _ _ _ E3) as (cs3 & Hc3 & Hp3 & Hf3 & HF3).
  assert (call_path <$> cs3 = take (length cs3) (remove_order actions)) as Hcs3.
  { destruct Hp3 as [l' ->]. rewrite take_app_length'; [done|by rewrite length_fmap]. }
  assert (calls st3 = calls st ++ cs1 ++ cs2 ++ cs3) as Hc.
  { by rewrite Hc3, Hc2, Hc1, <-!app_assoc. }
  destruct r3 as [[]|e3]; injection Hrun as <- <-; exists cs1, cs2, cs3;
    repeat split; try done.
  - rewrite <-(Hf1 eq_refl). by rewrite length_fmap.
  - rewrite <-(Hf2 eq_refl). by rewrite length_fmap.
  - rewrite <-(Hf3 eq_refl). by rewrite length_fmap.
Qed.

Lemma copytree_ok src p t t' :
  copytree src p p t = (t', None) →
  (∀ q k, kindp t q = Some k → kindp t' q = Some k) ∧
  (∀ q, kindp src (p ++ q) = Some KDir → kindp t' (p ++ q) = Some KDir) ∧
  (∀ q d, lookup_path src (p ++ q) = Some (File d) →
          kindp t (p ++ q) ≠ Some KDir →
          lookup_path t' (p ++ q) = Some (File d)).
Proof.
  intros Hc. pose proof (copytree_grows _ _ _ _ Hc) as [Hmono _]. split; [done|].
  unfold copytree in Hc.
  destruct (lookup_path src p) as [[d0|scs]|] eqn:Hsrc; [done| |done].
  destruct (makedirs true p t) as [t1 [e1|]] eqn:Hm; [done|].
  apply makedirs_ok in Hm as (_ & _ & Hk1).
  apply update_at_ok in Hc as [He Hl].
  destruct (copytree_node (Dir scs) (lookup_path t1 p)) as [o' e'] eqn:Hnode.
  simpl in He, Hl. subst e'. apply copytree_node_copied in Hnode as [Hdirs Hfiles]. split.
  - intros q Hq. unfold kindp. rewrite Hl. apply Hdirs. by rewrite kindp_app, Hsrc in Hq.
  - intros q d Hq Hnd. rewrite Hl. apply Hfiles; [by rewrite lookup_path_app, Hsrc in Hq|].
    rewrite <-kindp_app, Hk1. destruct (kindp t (p ++ q)) eqn:Hkq; [done|].
    case_decide as Hpre; [|done]. destruct Hpre as [r' Hr'].
    rewrite <-app_assoc in Hr'. rewrite <-(app_nil_r p) in Hr' at 1.
    apply app_inv_head in Hr'. symmetry in Hr'. apply app_eq_nil in Hr' as [-> _].
    rewrite app_nil_r in Hq. congruence.
Qed.


(* ===================================================================== *)
(** * The create loop *)
(* ===================================================================== *)

Lemma prefix_length_lt (q p : path) : q `prefix_of` p → q ≠ p → length q < length p.
Proof.
  intros [r ->] Hne. rewrite length_app. destruct r; [by rewrite app_nil_r in Hne|].
  simpl. lia.
Qed.



(* ===================================================================== *)
(** * The remove loop *)
(* ===================================================================== *)




(* ===================================================================== *)
(** * Two passes in a row *)
(* ===================================================================== *)


Lemma content_of_not_dir t : kindp t [] ≠ Some KDir → content_of t = [].
Proof. by destruct t as [[d|cs]|]. Qed.

(** After a pass that returns, on trees whose common paths have the same
    kind on both sides, the destination lists what the source lists. *)
Lemma pass_converges src st a st' :
  Forall (λ q, kindp src q = kindp (tree st) q)
         (dict_get (classify (content_of src) (content_of (tree st))) "copied") →
  synchronize_folders src st = (Ok a, st') →
  ∀ q, listed (tree st') q ↔ listed src q.
Proof.
  intros Hagree (-> & st1 & st2 & Hcreate & Hcopy & Hrem)%synchronize_folders_Ok q.
  rewrite Forall_forall in Hagree.
  pose proof (remove_phase_Ok _ _ _ _ Hrem) as Hk3.
  pose proof (create_phase_Ok _ _ _ _ Hcreate) as [Hg1 Hmade].
  pose proof (copy_phase_Ok _ _ _ _ Hcopy) as Hg2.
  pose proof (grows_trans _ _ _ _ Hg1 Hg2) as [Hmono Horigin].
  split.
  - intros (Hne & Hvis & Hs). apply kindp_is_Some in Hs as [k Hk].
    rewrite Hk3 in Hk. case_decide as Hrm; [done|].
    rewrite elem_of_remove_order in Hrm.
    destruct (decide (listed src q)) as [|Hnsrc]; [done|]. exfalso.
    assert (kindp (tree st) q = Some k → False) as Hndst.
    { intros Hd. apply Hrm. split; [|done]. repeat split; [done..|].
      apply kindp_is_Some. by rewrite Hd. }
    pose proof Hk as Hk2.
    apply Horigin in Hk as [Hk|[Hk|(_ & r & y & -> & Hfile & Hdir)]]; [done| |].
    + apply Hnsrc. repeat split; [done..|]. apply kindp_is_Some. by rewrite Hk.
    + apply Forall_app in Hvis as [Hvr _].
      destruct (decide (r = [])) as [->|Hr].
      * (* the source root is a file: nothing is listed, nothing created or copied *)
        assert (∀ p, ¬ listed src p) as Hnone.
        { intros p Hp%elem_of_content_of.
          rewrite content_of_not_dir in Hp by congruence. by apply elem_of_nil in Hp. }
        assert (create_order (classify (content_of src) (content_of (tree st))) = []) as E1.
        { apply elem_of_nil_inv. intros p [Hp _]%elem_of_create_order. by eapply Hnone. }
        assert (copy_order (classify (content_of src) (content_of (tree st))) = []) as E2.
        { apply elem_of_nil_inv. intros p [[Hp _] _]%elem_of_copy_order. by eapply Hnone. }
        rewrite E1 in Hcreate. rewrite E2 in Hcopy.
        injection Hcreate as <-. injection Hcopy as <-. by apply Hndst.
      * assert (listed src r) as Hsr.
        { repeat split; [done..|]. apply kindp_is_Some. by rewrite Hfile. }
        assert (listed (tree st) r) as Hdr.
        { repeat split; [done..|]. apply kindp_is_Some. by rewrite Hdir. }
        specialize (Hagree r). rewrite elem_of_copied in Hagree.
        specialize (Hagree (conj Hsr Hdr)). congruence.
  - intros Hsrc. pose proof Hsrc as (Hne & Hvis & Hs). repeat split; [done..|].
    apply kindp_is_Some. rewrite Hk3. rewrite decide_False.
    2:{ rewrite elem_of_remove_order. by intros [_ ?]. }
    destruct (decide (listed (tree st) q)) as [(_ & _ & Hd)|Hnd].
    + apply kindp_is_Some in Hd as [k Hk]. apply Hmono in Hk. eauto.
    + destruct (Hmade q) as [k Hk]; [by apply elem_of_create_order|].
      destruct Hg2 as [Hmono2 _]. apply Hmono2 in Hk. eauto.
Qed.

(* ===================================================================== *)
(** * Exceptions *)
(* ===================================================================== *)

(** A loop raises exactly when one turn raises after the turns before it
    returned; the turns after it are not run. *)
Lemma for_each_Raise {A} (l : list A) body st e st' :
  for_each l body st = (Raise e, st') ↔
  ∃ l1 x l2 st1, l = l1 ++ x :: l2 ∧
                 for_each l1 body st = (Ok tt, st1) ∧
                 body x st1 = (Raise e, st').
Proof.
  split.
  - revert st. induction l as [|x l IH]; intros st Hrun; [done|].
    simpl in Hrun. apply bind_Raise in Hrun as [Hx|([] & st1 & Hx & Hrun)].
    + by exists [], x, l, st.
    + apply IH in Hrun as (l1 & y & l2 & st2 & -> & Hl1 & Hy).
      exists (x :: l1), y, l2, st2. split; [done|]. split; [|done].
      apply for_each_cons_Ok. eauto.
  - intros (l1 & x & l2 & st1 & -> & Hl1 & Hx).
    rewrite for_each_app, Hl1. simpl. apply bind_Raise. by left.
Qed.

Lemma synchronize_folders_Raise src st e st' :
  synchronize_folders src st = (Raise e, st') ↔ raises_in_pass src st e st'.
Proof.
  unfold synchronize_folders. split.
  - intros Hrun. apply bind_Raise in Hrun as [Hrun|(sc & st0 & [= <- <-] & Hrun)]; [done|].
    apply bind_Raise in Hrun as [Hrun|([] & st1 & H1 & Hrun)].
    { apply for_each_Raise in Hrun as (l1 & p & l2 & st1 & ? & ? & ?).
      by eapply raises_in_create. }
    apply bind_Raise in Hrun as [Hrun|([] & st2 & H2 & Hrun)].
    { apply for_each_Raise in Hrun as (l1 & p & l2 & st2 & ? & ? & ?).
      by eapply raises_in_copy. }
    apply bind_Raise in Hrun as [Hrun|([] & st3 & H3 & Hrun)]; [|done].
    apply for_each_Raise in Hrun as (l1 & p & l2 & st3 & ? & ? & ?).
    by eapply raises_in_remove.
  - intros Hr. apply bind_Raise. right. exists (content_of (tree st)), st. split; [done|].
    destruct Hr as [l1 p l2 st1 Hord H1 Hp|st1 l1 p l2 st2 H1 Hord H2 Hp
                   |st1 st2 l1 p l2 st3 H1 H2 Hord H3 Hp].
    + apply bind_Raise. left. apply for_each_Raise. by exists l1, p, l2, st1.
    + apply bind_Raise. right. exists tt, st1. split; [done|].
      apply bind_Raise. left. apply for_each_Raise. by exists l1, p, l2, st2.
    + apply bind_Raise. right. exists tt, st1. split; [done|].
      apply bind_Raise. right. exists tt, st2. split; [done|].
      apply bind_Raise. left. apply for_each_Raise. by exists l1, p, l2, st3.
Qed.

(** C9.  An error raised by a call in the create, copy or remove loop is
    caught nowhere: it is the outcome of [synchronize_folders], no call
    follows the failing one, the turn of the scheduling loop writes no log
    and prints no completion line, and the loop ends with that error without
    running another pass.  Nothing else makes a pass raise. *)
Theorem C9_error_propagates (strftime : nat → string) (src : option node)
    (original_path synchronized_path : string) (interval : nat)
    (w : world) (e : error) (st' : state) :
  raises_in_pass src (dst_state w) e st' →
  synchronize_folders src (dst_state w) = (Raise e, st') ∧
  (∃ cs c t, calls st' = calls (dst_state w) ++ cs ++ [c] ∧
             run_call src c t = (tree st', Some e)) ∧
  (∀ n, synchronization_loop strftime (S n) src original_path synchronized_path interval w
        = Died e (World st' (sync_log w)
                    (stdout w ++ [started_message (strftime (clock w)) original_path
                                    synchronized_path interval])
                    (clock w))) ∧
  (∀ st0 e0 st0', synchronize_folders src st0 = (Raise e0, st0') →
                  raises_in_pass src st0 e0 st0').
Proof.
  intros Hr. pose proof (proj2 (synchronize_folders_Raise _ _ _ _) Hr) as Hrun.
  split; [done|]. split.
  { pose proof (λ mk body l Hb Hmk s s', for_each_journal src mk body l Hb Hmk s (Ok tt) s')
      as Hj.
    pose proof (Hj (λ _, create_call src) (create_body src)) as Hj1.
    pose proof (Hj (λ _, copy_call src) (copy_body src)) as Hj2.
    pose proof (Hj remove_call (remove_body src)) as Hj3. clear Hj.
    destruct Hr as [l1 p l2 st1 Hord H1 Hp|st1 l1 p l2 st2 H1 Hord H2 Hp
                   |st1 st2 l1 p l2 st3 H1 H2 Hord H3 Hp].
    - apply Hj1 in H1 as (cs1 & Hc1 & _);
        [|intros; by rewrite create_body_exec|intros; apply call_path_create].
      rewrite create_body_exec in Hp. apply exec_Raise in Hp as [Hp Hc].
      exists cs1, (create_call src p), (tree st1). split; [|done].
      by rewrite Hc, Hc1, <-app_assoc.
    - apply Hj1 in H1 as (cs1 & Hc1 & _);
        [|intros; by rewrite create_body_exec|intros; apply call_path_create].
      apply Hj2 in H2 as (cs2 & Hc2 & _);
        [|intros; by rewrite copy_body_exec|intros; apply call_path_copy].
      rewrite copy_body_exec in Hp. apply exec_Raise in Hp as [Hp Hc].
      exists (cs1 ++ cs2), (copy_call src p), (tree st2). split; [|done].
      by rewrite Hc, Hc2, Hc1, <-!app_assoc.
    - apply Hj1 in H1 as (cs1 & Hc1 & _);
        [|intros; by rewrite create_body_exec|intros; apply call_path_create].
      apply Hj2 in H2 as (cs2 & Hc2 & _);
        [|intros; by rewrite copy_body_exec|intros; apply call_path_copy].
      apply Hj3 in H3 as (cs3 & Hc3 & _);
        [|intros; by rewrite remove_body_exec|intros; apply call_path_remove].
      rewrite remove_body_exec in Hp. apply exec_Raise in Hp as [Hp Hc].
      exists (cs1 ++ cs2 ++ cs3), (remove_call (tree st3) p), (tree st3). split; [|done].
      by rewrite Hc, Hc3, Hc2, Hc1, <-!app_assoc. }
  split.
  { intros n. simpl. unfold pass. simpl. by rewrite Hrun. }
  intros st0 e0 st0'. apply synchronize_folders_Raise.
Qed.

Lemma C9_error_propagates_witness :
  let w := World (State stale_dst []) ["stale line"] [] 0 in
  let st' := (synchronize_folders stale_src (State stale_dst [])).2 in
  raises_in_pass stale_src (dst_state w) OSError_ENOTEMPTY st' ∧
  ∀ n, synchronization_loop noon (S n) stale_src "src" "dst" 60 w
       = Died OSError_ENOTEMPTY
           (World st' ["stale line"]
              ["2024-01-01 12:00:00 Started synchronization from src to dst with a synchronization interval of 60 seconds"]
              0).
Proof.
  intros w st'.
  assert (raises_in_pass stale_src (dst_state w) OSError_ENOTEMPTY st') as Hr.
  { apply (raises_in_remove _ _ _ _ (State stale_dst []) (State stale_dst [])
             [] ["old"] [] (State stale_dst [])); vm_compute; reflexivity. }
  split; [exact Hr|].
  destruct (C9_error_propagates noon stale_src "src" "dst" 60 w _ _ Hr) as (_ & _ & Hloop & _).
  intros n. rewrite Hloop. vm_compute. reflexivity.
Defined.

(* ===================================================================== *)
(** * When the copy loop returns *)
(* ===================================================================== *)

Lemma kindp_children o x q :
  kind_of o ≠ Some KFile → kindp (children_of o !! x) q = kindp o (x :: q).
Proof. intros Hf. unfold kindp. by rewrite (lookup_path_children o x q Hf). Qed.

Lemma copy2_entry_error d x o :
  (copy2_entry d x o).2 = None ↔ ¬ (kindp o [] = Some KDir ∧ kindp o [x] = Some KDir).
Proof.
  unfold kindp. destruct o as [[d0|sub]|]; simpl.
  - split; [by intros _ [? _]|done].
  - destruct (sub !! x) as [[d1|sub1]|]; simpl.
    + split; [by intros _ [_ ?]|done].
    + split; [done|]. intros H. by destruct H.
    + split; [by intros _ [_ ?]|done].
  - split; [by intros _ [? _]|done].
Qed.

(** [copytree] on a source directory returns when the destination has no
    file where the source has a directory, and no directory [q/x/x] where
    the source has a file [q/x] and the destination a directory [q/x]. *)
Lemma copytree_node_returns s : ∀ o,
  kind_of (Some s) = Some KDir →
  conflict_free (Some s) o →
  (copytree_node s o).2 = None.
Proof.
  induction s as [d|scs IH] using node_ind'; intros o Hdir [Hcf1 Hcf2]; [done|].
  assert (kind_of o ≠ Some KFile) as Hf by exact (Hcf1 [] eq_refl).
  rewrite copytree_node_Dir.
  assert ((fold_entries scs (children_of o)).2 = false) as Hfold.
  2:{ destruct o as [[d0|dcs]|]; [done|..]; simpl in *; by rewrite Hfold. }
  apply fold_entries_spec. intros x c Hx. destruct c as [d1|scs1]; simpl.
  - apply copy2_entry_error. rewrite !kindp_children by done. intros [H1 H2].
    apply (Hcf2 [] x); [|done..]. unfold kindp. simpl. by rewrite Hx.
  - apply (IH x _ Hx); [done|]. split.
    + intros q Hq. rewrite kindp_children by done. apply Hcf1.
      unfold kindp in *. simpl. by rewrite Hx.
    + intros q y Hq. rewrite !kindp_children by done. apply (Hcf2 (x :: q) y).
      unfold kindp in *. simpl. by rewrite Hx.
Qed.

(** A file of the source that met a directory is inside that directory after
    a [copytree] that returns. *)
Lemma copytree_node_landed s : ∀ o o',
  copytree_node s o = (o', None) →
  ∀ q x d, lookup_path (Some s) (q ++ [x]) = Some (File d) →
           kindp o (q ++ [x]) = Some KDir →
           lookup_path o' (q ++ [x; x]) = Some (File d).
Proof.
  induction s as [d|scs IH] using node_ind'; intros o o' Hc; [done|].
  rewrite copytree_node_Dir in Hc.
  destruct (decide (kind_of o = Some KFile)) as [Hf|Hf].
  { destruct o as [[d0|dcs]|]; done. }
  destruct (fold_entries_spec scs (children_of o)) as [Hl He].
  assert (o' = Some (Dir (fold_entries scs (children_of o)).1) ∧
          (fold_entries scs (children_of o)).2 = false) as [-> Hok].
  { destruct o as [[d0|dcs]|]; [done|..]; simpl in Hc;
      destruct (fold_entries _ _).2; by simplify_eq. }
  clear Hc. destruct He as [He _]. specialize (He Hok). clear Hok.
  intros [|y q] x d.
  - simpl. destruct (scs !! x) as [c|] eqn:Hx; [|done]. intros [= ->].
    rewrite <-kindp_children by done. unfold kindp. simpl. rewrite Hl, Hx. simpl.
    specialize (He x _ Hx). simpl in He.
    destruct (children_of o !! x) as [[d2|sub]|]; [done| |done]. simpl in *.
    destruct (sub !! x) as [[d3|sub3]|]; [|done|]; simpl; by rewrite lookup_insert_eq.
  - simpl. destruct (scs !! y) as [c|] eqn:Hy; [|by rewrite lookup_path_None].
    intros Hs. change (y :: q ++ [x]) with (y :: (q ++ [x])).
    rewrite <-kindp_children by done. intros Hd. rewrite Hl, Hy.
    destruct c as [d1|scs1]; [by destruct q|].
    specialize (He y _ Hy). unfold entry_step in *.
    destruct (copytree_node (Dir scs1) (children_of o !! y)) as [o1 e1] eqn:Hc1.
    cbn [fst snd] in *. subst e1. by apply (IH y _ Hy _ _ Hc1).
Qed.

(** After a [copytree] that returns, a second one returns as well. *)
Lemma copytree_node_conflict_free s o o' :
  copytree_node s o = (o', None) → conflict_free (Some s) o'.
Proof.
  intros Hc. pose proof (copytree_node_copied _ _ _ Hc) as [Hdirs Hfiles].
  pose proof (copytree_node_landed _ _ _ Hc) as Hland. split.
  - intros q Hq. by rewrite (Hdirs q Hq).
  - intros q x Hs Hd.
    unfold kindp in Hs. destruct (lookup_path (Some s) (q ++ [x])) as [[d|?]|] eqn:Hsrc; [|done..].
    destruct (decide (kindp o (q ++ [x]) = Some KDir)) as [Ho|Ho].
    + unfold kindp. by rewrite (Hland q x d Hsrc Ho).
    + unfold kindp in Hd. by rewrite (Hfiles _ _ Hsrc Ho) in Hd.
Qed.

Lemma makedirs_existing p t :
  kindp t p = Some KDir → (makedirs true p t).2 = None.
Proof.
  intros Hk. unfold makedirs.
  assert (is_Some (lookup_path t p)) as Hs by (apply kindp_is_Some; by rewrite Hk).
  assert ((update_at p (mkdir_entry true) t).2 = None) as Hleaf.
  { rewrite update_at_reached by done. unfold kindp in Hk.
    by destruct (lookup_path t p) as [[d|cs]|]. }
  destruct (length p) as [|m] eqn:Hlen.
  - apply nil_length_inv in Hlen as ->. exact Hleaf.
  - simpl makedirs_prefix.
    assert (exists_path t (take m p) = true) as ->.
    { apply exists_path_true. eapply lookup_path_prefix; [apply prefix_take|done]. }
    change (match p with [] => [] | y :: l => y :: take m l end) with (take (S m) p).
    rewrite <-Hlen, firstn_all. exact Hleaf.
Qed.

Lemma app_prefix_nil (p r : path) : p ++ r `prefix_of` p → r = [].
Proof.
  intros [r' Hr']. rewrite <-app_assoc in Hr'. rewrite <-(app_nil_r p) in Hr' at 1.
  apply app_inv_head in Hr'. symmetry in Hr'. by apply app_eq_nil in Hr' as [-> _].
Qed.

(** The two steps of a top-level [copytree] that returns. *)
Lemma copytree_Ok_inv src p t t' :
  copytree src p p t = (t', None) →
  ∃ scs t1 o',
    lookup_path src p = Some (Dir scs) ∧
    (∀ q, kindp t1 q = match kindp t q with
                       | Some k => Some k
                       | None => if decide (q `prefix_of` p) then Some KDir else None
                       end) ∧
    copytree_node (Dir scs) (lookup_path t1 p) = (o', None) ∧
    (∀ r, lookup_path t' (p ++ r) = lookup_path o' r) ∧
    (∀ q, ¬ p `prefix_of` q → kindp t' q = kindp t1 q).
Proof.
  unfold copytree. intros Hc.
  destruct (lookup_path src p) as [[d0|scs]|] eqn:Hsrc; [done| |done].
  destruct (makedirs true p t) as [t1 [e1|]] eqn:Hm; [done|].
  apply makedirs_ok in Hm as (_ & _ & Hk1).
  pose proof (update_at_frame p (copytree_node (Dir scs)) t1) as Hfr.
  rewrite Hc in Hfr. simpl in Hfr.
  apply update_at_ok in Hc as [He Hl].
  destruct (copytree_node (Dir scs) (lookup_path t1 p)) as [o' e'] eqn:Hnode.
  simpl in He, Hl. subst e'. by exists scs, t1, o'.
Qed.

Lemma copytree_conflict_free src p t t' :
  copytree src p p t = (t', None) →
  conflict_free (lookup_path src p) (lookup_path t' p).
Proof.
  intros (scs & t1 & o' & Hsrc & _ & Hnode & Hl & _)%copytree_Ok_inv.
  rewrite Hsrc. specialize (Hl []) as Hl0. rewrite app_nil_r in Hl0. rewrite Hl0.
  by eapply copytree_node_conflict_free.
Qed.

Lemma copytree_landed src p t t' q x d :
  copytree src p p t = (t', None) →
  lookup_path src (p ++ q ++ [x]) = Some (File d) →
  kindp t (p ++ q ++ [x]) = Some KDir →
  lookup_path t' (p ++ q ++ [x; x]) = Some (File d).
Proof.
  intros (scs & t1 & o' & Hsrc & Hk1 & Hnode & Hl & _)%copytree_Ok_inv Hs Hd.
  rewrite Hl. eapply copytree_node_landed; [done| |].
  - by rewrite lookup_path_app, Hsrc in Hs.
  - rewrite <-kindp_app, Hk1, Hd. done.
Qed.

Lemma copytree_frame src p t t' q :
  copytree src p p t = (t', None) → is_Some (kindp t p) →
  ¬ p `prefix_of` q → kindp t' q = kindp t q.
Proof.
  intros (scs & t1 & o' & _ & Hk1 & _ & _ & Hfr)%copytree_Ok_inv Hp Hq.
  rewrite Hfr, Hk1 by done. destruct (kindp t q) eqn:Hkq; [done|].
  case_decide as Hpre; [|done]. exfalso.
  apply kindp_is_Some in Hp. apply (lookup_path_prefix _ _ _ Hpre) in Hp.
  apply kindp_is_Some in Hp as [k Hk]. congruence.
Qed.

Lemma conflict_free_kinds s o o' :
  (∀ q, kindp o' q = kindp o q ∨ kindp o' q = None) →
  conflict_free s o → conflict_free s o'.
Proof.
  intros Hk [H1 H2]. split.
  - intros q Hq. destruct (Hk q) as [->| ->]; [by apply H1|done].
  - intros q x Hs Hd. destruct (Hk (q ++ [x])) as [Heq|Heq]; [|congruence].
    rewrite Heq in Hd. destruct (Hk (q ++ [x; x])) as [->| ->]; [by apply H2|done].
Qed.

Lemma copytree_returns src p scs t :
  lookup_path src p = Some (Dir scs) →
  kindp t p = Some KDir →
  conflict_free (lookup_path src p) (lookup_path t p) →
  (copytree src p p t).2 = None.
Proof.
  intros Hsrc Hk Hcf. unfold copytree. rewrite Hsrc.
  pose proof (makedirs_existing p t Hk) as Hm.
  destruct (makedirs true p t) as [t1 e1] eqn:Hmk. simpl in Hm. subst e1.
  apply makedirs_ok in Hmk as (_ & _ & Hk1).
  assert (∀ q, kindp t1 (p ++ q) = kindp t (p ++ q)) as Hsame.
  { intros q. rewrite Hk1. destruct (kindp t (p ++ q)) eqn:Hkq; [done|].
    case_decide as Hpre; [|done]. apply app_prefix_nil in Hpre as ->.
    rewrite app_nil_r in Hkq. congruence. }
  rewrite update_at_reached.
  2:{ apply kindp_is_Some. specialize (Hsame []). rewrite app_nil_r in Hsame.
      rewrite Hsame, Hk. eauto. }
  apply copytree_node_returns; [done|]. rewrite <-Hsrc.
  eapply conflict_free_kinds; [|done]. intros q. left.
  by rewrite <-!kindp_app.
Qed.

Lemma copy2_returns src p d t :
  lookup_path src p = Some (File d) →
  kindp t p = Some KFile →
  (copy2 src p p t).2 = None.
Proof.
  intros Hsrc Hk. unfold copy2. rewrite Hsrc, update_at_reached.
  2:{ apply kindp_is_Some. rewrite Hk. eauto. }
  unfold kindp in Hk. by destruct (lookup_path t p) as [[d0|cs]|].
Qed.

Lemma conflict_free_file d o : conflict_free (Some (File d)) o.
Proof.
  split.
  - intros [|x q]; [done|]. unfold kindp. by rewrite lookup_path_File.
  - intros q x. unfold kindp. rewrite lookup_path_File; [done|]. by destruct q.
Qed.

Lemma conflict_free_at src t t' x :
  (∀ q, kindp t' (x :: q) = kindp t (x :: q) ∨ kindp t' (x :: q) = None) →
  conflict_free (lookup_path src [x]) (lookup_path t [x]) →
  conflict_free (lookup_path src [x]) (lookup_path t' [x]).
Proof.
  intros Hk. apply conflict_free_kinds. intros q.
  rewrite <-!kindp_app. apply Hk.
Qed.

Lemma prefix_singleton_cons (x y : string) (q : path) : [y] `prefix_of` x :: q → y = x.
Proof. intros [r Hr]. by injection Hr. Qed.

Lemma ready_step src st y st1 :
  ready src (tree st) → listed src [y] →
  copy_body src [y] st = (Ok tt, st1) → ready src (tree st1).
Proof.
  intros Hready Hy Hbody x Hx.
  destruct (Hready y Hy) as [Hky _]. destruct (Hready x Hx) as [Hkx Hcfx].
  pose proof (copy_body_Ok _ _ _ _ Hbody) as [Hmono _].
  rewrite copy_body_exec, exec_Ok in Hbody. destruct Hbody as [Hrun _].
  unfold copy_call in Hrun. destruct (isdir src [y]) eqn:Hd; simpl in Hrun.
  - destruct (decide (x = y)) as [->|Hne].
    + split; [|by eapply copytree_conflict_free].
      destruct Hy as (_ & _ & [k Hk]%kindp_is_Some). rewrite Hk in Hky |- *. by apply Hmono.
    + assert (∀ q, kindp (tree st1) (x :: q) = kindp (tree st) (x :: q)) as Hsame.
      { intros q. eapply copytree_frame; [done| |].
        - rewrite Hky. apply kindp_is_Some. by destruct Hy as (_ & _ & ?).
        - intros Hpre%prefix_singleton_cons. done. }
      split; [by rewrite Hsame|]. eapply conflict_free_at; [|done]. intros q. left. apply Hsame.
  - apply isdir_false_kindp in Hd.
    assert (kindp (tree st) [y] ≠ Some KDir) as Hnd by by rewrite Hky.
    apply isdir_false_kindp in Hnd.
    apply copy2_ok in Hrun as (d & Hsrc & _ & Hnew & Hfr).
    unfold copy2_target in Hnew, Hfr. rewrite Hnd in Hnew, Hfr.
    destruct (decide (x = y)) as [->|Hne].
    + split; [by unfold kindp; rewrite Hnew, Hsrc|]. rewrite Hsrc. apply conflict_free_file.
    + assert (∀ q, kindp (tree st1) (x :: q) = kindp (tree st) (x :: q)) as Hsame.
      { intros q. apply Hfr. by intros [= -> _]. }
      split; [by rewrite Hsame|]. eapply conflict_free_at; [|done]. intros q. left. apply Hsame.
Qed.

Lemma ready_returns src st y :
  ready src (tree st) → listed src [y] → ∃ st1, copy_body src [y] st = (Ok tt, st1).
Proof.
  intros Hready Hy. destruct (Hready y Hy) as [Hky Hcf].
  rewrite copy_body_exec. unfold exec, copy_call.
  destruct Hy as (_ & _ & [n Hn]).
  destruct n as [d|scs]; unfold isdir; rewrite Hn; simpl.
  - pose proof (copy2_returns src [y] d (tree st) Hn) as Hr.
    destruct (copy2 src [y] [y] (tree st)) as [t' e]. simpl in Hr.
    rewrite Hr; [eauto|]. rewrite Hky. by unfold kindp; rewrite Hn.
  - pose proof (copytree_returns src [y] scs (tree st) Hn) as Hr.
    destruct (copytree src [y] [y] (tree st)) as [t' e]. simpl in Hr.
    rewrite Hr; [eauto| |done]. rewrite Hky. by unfold kindp; rewrite Hn.
Qed.

(** On a destination that is ready, the copy loop returns. *)
Lemma copy_loop_returns src l : ∀ st,
  ready src (tree st) →
  Forall (λ p, listed src p ∧ length p = 1) l →
  ∃ st', for_each l (copy_body src) st = (Ok tt, st').
Proof.
  induction l as [|p l IH]; intros st Hready Hl; [by eexists|].
  apply Forall_cons in Hl as [[Hp Hlen] Hl].
  destruct p as [|y [|? ?]]; [done| |done].
  destruct (ready_returns _ _ _ Hready Hp) as [st1 H1].
  destruct (IH st1) as [st' H']; [by eapply ready_step|done|].
  exists st'. apply for_each_cons_Ok. eauto.
Qed.

Lemma for_each_split_Ok {A} (l : list A) x body st st' :
  x ∈ l → for_each l body st = (Ok tt, st') →
  ∃ l1 l2 sa sb,
    for_each l1 body st = (Ok tt, sa) ∧
    body x sa = (Ok tt, sb) ∧
    for_each l2 body sb = (Ok tt, st').
Proof.
  intros (l1 & l2 & ->)%list_elem_of_split Hrun.
  rewrite for_each_app in Hrun.
  destruct (for_each l1 body st) as [[[]|e] sa] eqn:H1; [|done].
  apply for_each_cons_Ok in Hrun as (sb & Hx & H2). by exists l1, l2, sa, sb.
Qed.

(** After a pass that returns, on trees whose common paths have the same
    kind on both sides, the destination is ready for the next copy loop. *)
Lemma pass_ready src st a st' :
  Forall (λ q, kindp src q = kindp (tree st) q)
         (dict_get (classify (content_of src) (content_of (tree st))) "copied") →
  synchronize_folders src st = (Ok a, st') →
  ready src (tree st').
Proof.
  intros Hagree Hrun x Hx. pose proof (pass_converges _ _ _ _ Hagree Hrun) as Hconv.
  apply synchronize_folders_Ok in Hrun as (-> & st1 & st2 & Hcreate & Hcopy & Hrem).
  rewrite Forall_forall in Hagree.
  pose proof (remove_phase_Ok _ _ _ _ Hrem) as Hk3.
  pose proof (create_phase_Ok _ _ _ _ Hcreate) as [Hg1 _].
  pose proof (copy_phase_Ok _ _ _ _ Hcopy) as Hg2.
  pose proof (grows_trans _ _ _ _ Hg1 Hg2) as [Hmono Horigin].
  pose proof Hx as (_ & Hvx & [k0 Hk0]%kindp_is_Some).
  assert (kindp src [] = Some KDir) as Hroot.
  { apply (lookup_path_prefix_dir src [] [x]); [apply prefix_nil|done|].
    apply kindp_is_Some. by rewrite Hk0. }
  assert (∀ q, kindp (tree st') (x :: q) = kindp (tree st2) (x :: q) ∨
               kindp (tree st') (x :: q) = None) as Hshrink.
  { intros q. rewrite Hk3. case_decide; auto. }
  assert (¬ listed (tree st) [x] → ∀ q, kindp (tree st) (x :: q) = None) as Hfresh.
  { intros Hn q. destruct (kindp (tree st) (x :: q)) eqn:Hk; [|done]. destruct Hn.
    repeat split; [done..|]. apply (lookup_path_prefix _ [x] (x :: q)).
    - by apply prefix_cons, prefix_nil.
    - apply kindp_is_Some. by rewrite Hk. }
  assert (∀ r y q, x :: q = r ++ [y] → kindp src r = Some KFile →
                   kindp (tree st) r = Some KDir → listed (tree st) [x]) as Hland.
  { intros r y q Heq Hfile Hdir. destruct r as [|x' r]; [congruence|].
    injection Heq as <- _. repeat split; [done..|].
    apply (lookup_path_prefix _ [x] (x :: r)).
    - by apply prefix_cons, prefix_nil.
    - apply kindp_is_Some. by rewrite Hdir. }
  split.
  - (* the kind of [x] *)
    pose proof (proj2 (Hconv [x]) Hx) as (_ & _ & [k Hk]%kindp_is_Some).
    rewrite Hk, Hk0. f_equal.
    rewrite Hk3 in Hk. case_decide; [done|].
    apply Horigin in Hk as [Hk|[Hk|(-> & r & y & Heq & Hfile & Hdir)]].
    + assert (listed (tree st) [x]) as Hd.
      { repeat split; [done..|]. apply kindp_is_Some. by rewrite Hk. }
      specialize (Hagree [x]). rewrite elem_of_copied in Hagree.
      specialize (Hagree (conj Hx Hd)). congruence.
    + congruence.
    + change [x] with (x :: []) in Heq.
      pose proof (Hland r y [] Heq Hfile Hdir) as Hd.
      specialize (Hagree [x]). rewrite elem_of_copied in Hagree.
      specialize (Hagree (conj Hx Hd)).
      destruct r as [|? [|? ?]]; [congruence|done..].
  - (* nothing stands in the way below [x] *)
    eapply conflict_free_at; [exact Hshrink|].
    unfold kindp in Hk0. destruct (lookup_path src [x]) as [[d|scs]|] eqn:Hsrc; [|clear Hk0|done].
    { apply conflict_free_file. }
    rewrite <-Hsrc.
    destruct (decide (listed (tree st) [x])) as [Hd|Hnd].
    + (* [x] was copied by this pass *)
      assert ([x] ∈ copy_order (classify (content_of src) (content_of (tree st)))) as Hin.
      { by apply elem_of_copy_order. }
      destruct (for_each_split_Ok _ _ _ _ _ Hin Hcopy) as (l1 & l2 & sa & sb & _ & Hb & H2).
      apply copy_phase_Ok in H2 as [Hmono2 _].
      rewrite copy_body_exec, exec_Ok in Hb. destruct Hb as [Hb _].
      unfold copy_call, isdir in Hb. rewrite Hsrc in Hb. simpl in Hb.
      pose proof (copytree_ok _ _ _ _ Hb) as (_ & Hdirs & Hfiles). split.
      * intros q Hq. rewrite <-kindp_app in Hq |- *.
        apply Hdirs, Hmono2 in Hq. by rewrite Hq.
      * intros q y Hq Hd1. rewrite <-kindp_app in Hq, Hd1 |- *.
        unfold kindp in Hq.
        destruct (lookup_path src ([x] ++ q ++ [y])) as [[d1|?]|] eqn:Hs1; [|done..].
        destruct (decide (kindp (tree sa) ([x] ++ q ++ [y]) = Some KDir)) as [Ha|Ha].
        -- pose proof (copytree_landed _ _ _ _ _ _ _ Hb Hs1 Ha) as Hl.
           assert (kindp (tree sb) ([x] ++ q ++ [y; y]) = Some KFile) as Hkf
             by by unfold kindp; rewrite Hl.
           apply Hmono2 in Hkf. by rewrite Hkf.
        -- pose proof (Hfiles _ _ Hs1 Ha) as Hl.
           assert (kindp (tree sb) ([x] ++ q ++ [y]) = Some KFile) as Hkf
             by by unfold kindp; rewrite Hl.
           apply Hmono2 in Hkf. congruence.
    + (* [x] was created by this pass: whatever is below it mirrors the source *)
      specialize (Hfresh Hnd). split.
      * intros q Hq. rewrite <-kindp_app in Hq |- *. simpl in *. intros Hf.
        apply Horigin in Hf as [Hf|[Hf|(_ & r & y & Heq & Hfile & Hdir)]].
        -- by rewrite Hfresh in Hf.
        -- congruence.
        -- by apply Hnd, (Hland r y q).
      * intros q y Hq Hd1 _. rewrite <-kindp_app in Hq, Hd1. simpl in *.
        apply Horigin in Hd1 as [Hf|[Hf|(? & _)]]; [|congruence|done].
        by rewrite Hfresh in Hf.
Qed.



(* ===================================================================== *)
(** * Files that stay as the source has them *)
(* ===================================================================== *)

(** When the walk reaches [p], what is found below [p] afterwards is what
    the primitive returned, whether it raised or not. *)
Lemma update_at_under p f o r :
  is_Some (lookup_path o p) →
  lookup_path (update_at p f o).1 (p ++ r) = lookup_path (f (lookup_path o p)).1 r.
Proof.
  revert o. induction p as [|x p IH]; intros o Hs; [done|].
  simpl in *. destruct o as [[d|cs]|]; [by destruct Hs| |by destruct Hs].
  specialize (IH _ Hs). destruct (update_at p f (cs !! x)) as [o1 e1].
  simpl in *. by rewrite lookup_partial_alter_eq.
Qed.

(** A file that is not at or below [p] is not touched by a primitive applied
    at [p]. *)
Lemma update_at_keeps_file p f o q d :
  lookup_path o q = Some (File d) → ¬ p `prefix_of` q →
  lookup_path (update_at p f o).1 q = Some (File d).
Proof.
  revert o q. induction p as [|x p IH]; intros o q Hq Hp.
  { destruct Hp. apply prefix_nil. }
  simpl. destruct o as [[d0|cs]|]; [done| |done].
  destruct (update_at p f (cs !! x)) as [o1 e1] eqn:Hu. simpl.
  destruct q as [|y q]; [done|]. simpl in *.
  destruct (decide (x = y)) as [->|Hne].
  - rewrite lookup_partial_alter_eq. replace o1 with (update_at p f (cs !! y)).1 by by rewrite Hu.
    apply IH; [done|]. intros Hpq. apply Hp. by apply prefix_cons.
  - by rewrite lookup_partial_alter_ne.
Qed.

Lemma mkdir_step_keeps_file exist_ok p t q d :
  lookup_path t q = Some (File d) →
  lookup_path (update_at p (mkdir_entry exist_ok) t).1 q = Some (File d).
Proof.
  intros Hq. destruct (prefix_of_cases p q) as [[r ->]|Hn]; [|by apply update_at_keeps_file].
  assert (is_Some (lookup_path t p)) as Hs.
  { apply (lookup_path_prefix _ _ (p ++ r)); [by apply prefix_app_r|]. rewrite Hq. eauto. }
  rewrite update_at_under by done. destruct Hs as [n Hn]. rewrite Hn.
  rewrite lookup_path_app, Hn in Hq. by destruct n.
Qed.

Lemma makedirs_keeps_file exist_ok p t q d :
  lookup_path t q = Some (File d) →
  lookup_path (makedirs exist_ok p t).1 q = Some (File d).
Proof.
  unfold makedirs. generalize (length p). intros n. revert t.
  induction n as [|m IH]; intros t Hq.
  - by apply mkdir_step_keeps_file.
  - simpl makedirs_prefix.
    change (match p with [] => [] | y :: l => y :: take m l end) with (take (S m) p).
    destruct (exists_path t (take m p)).
    + by apply mkdir_step_keeps_file.
    + specialize (IH t Hq). destruct (makedirs_prefix exist_ok p m t) as [t1 e1].
      simpl in IH. destruct e1 as [[]|]; simpl; try done; by apply mkdir_step_keeps_file.
Qed.

(** A destination file that holds what the source holds at the same path
    still does after [copy2], whatever path it was called on. *)
Lemma copy2_keeps_mirrored src p t q d :
  lookup_path src q = Some (File d) → lookup_path t q = Some (File d) →
  lookup_path (copy2 src p p t).1 q = Some (File d).
Proof.
  intros Hsq Htq. unfold copy2.
  destruct (lookup_path src p) as [[dp|scs]|] eqn:Hsp; [|done..].
  destruct (prefix_of_cases p q) as [[r ->]|Hn]; [|by apply update_at_keeps_file].
  assert (is_Some (lookup_path t p)) as Hs.
  { apply (lookup_path_prefix _ _ (p ++ r)); [by apply prefix_app_r|]. rewrite Htq. eauto. }
  rewrite update_at_under by done.
  rewrite lookup_path_app in Hsq, Htq. rewrite Hsp in Hsq.
  destruct r as [|y r]; [|done]. simpl in *. injection Hsq as ->. by rewrite Htq.
Qed.

Lemma copytree_node_keeps_mirrored s : ∀ o q d,
  lookup_path (Some s) q = Some (File d) → lookup_path o q = Some (File d) →
  lookup_path (copytree_node s o).1 q = Some (File d).
Proof.
  induction s as [d0|scs IH] using node_ind'; intros o q d Hs Ho; [done|].
  rewrite copytree_node_Dir.
  destruct o as [[d1|dcs]|]; [done| |by rewrite lookup_path_None in Ho].
  destruct q as [|x q]; [done|]. simpl in *.
  destruct (fold_entries_spec scs dcs) as [Hl _]. rewrite Hl.
  destruct (scs !! x) as [c|] eqn:Hx; [|by rewrite lookup_path_None in Hs].
  destruct c as [d2|scs2]; simpl.
  - destruct q; [|done]. simpl in *. injection Hs as ->.
    by destruct (dcs !! x) as [[?|?]|].
  - by apply (IH x _ Hx).
Qed.

Lemma copytree_keeps_mirrored src p t q d :
  lookup_path src q = Some (File d) → lookup_path t q = Some (File d) →
  lookup_path (copytree src p p t).1 q = Some (File d).
Proof.
  intros Hsq Htq. unfold copytree.
  destruct (lookup_path src p) as [[dp|scs]|] eqn:Hsp; [done| |done].
  pose proof (makedirs_keeps_file true p t q d Htq) as Hm.
  destruct (makedirs true p t) as [t1 [e1|]]; [done|]. simpl in Hm.
  destruct (prefix_of_cases p q) as [[r ->]|Hn]; [|by apply update_at_keeps_file].
  assert (is_Some (lookup_path t1 p)) as Hs.
  { apply (lookup_path_prefix _ _ (p ++ r)); [by apply prefix_app_r|]. rewrite Hm. eauto. }
  rewrite update_at_under by done. apply copytree_node_keeps_mirrored.
  - by rewrite lookup_path_app, Hsp in Hsq.
  - by rewrite lookup_path_app in Hm.
Qed.

Lemma create_body_keeps_mirrored src p st r st' q d :
  create_body src p st = (r, st') →
  lookup_path src q = Some (File d) → lookup_path (tree st) q = Some (File d) →
  lookup_path (tree st') q = Some (File d).
Proof.
  rewrite create_body_exec. unfold exec, create_call. intros Hb Hs Ht.
  destruct (isdir src p); simpl in Hb.
  - pose proof (makedirs_keeps_file false p _ _ _ Ht) as H.
    destruct (makedirs false p (tree st)) as [t' e]. by injection Hb as _ <-.
  - pose proof (copy2_keeps_mirrored src p _ _ _ Hs Ht) as H.
    destruct (copy2 src p p (tree st)) as [t' e]. by injection Hb as _ <-.
Qed.

Lemma copy_body_keeps_mirrored src p st r st' q d :
  copy_body src p st = (r, st') →
  lookup_path src q = Some (File d) → lookup_path (tree st) q = Some (File d) →
  lookup_path (tree st') q = Some (File d).
Proof.
  rewrite copy_body_exec. unfold exec, copy_call. intros Hb Hs Ht.
  destruct (isdir src p); simpl in Hb.
  - pose proof (copytree_keeps_mirrored src p _ _ _ Hs Ht) as H.
    destruct (copytree src p p (tree st)) as [t' e]. by injection Hb as _ <-.
  - pose proof (copy2_keeps_mirrored src p _ _ _ Hs Ht) as H.
    destruct (copy2 src p p (tree st)) as [t' e]. by injection Hb as _ <-.
Qed.

Lemma remove_body_keeps_file src p st r st' q d :
  remove_body src p st = (r, st') →
  ¬ p `prefix_of` q → lookup_path (tree st) q = Some (File d) →
  lookup_path (tree st') q = Some (File d).
Proof.
  rewrite remove_body_exec. unfold exec, remove_call. intros Hb Hp Ht.
  destruct (isdir (tree st) p); simpl in Hb.
  - pose proof (update_at_keeps_file p rmdir_entry _ _ _ Ht Hp) as H. unfold rmdir in Hb.
    destruct (update_at p rmdir_entry (tree st)) as [t' e]. by injection Hb as _ <-.
  - pose proof (update_at_keeps_file p remove_entry _ _ _ Ht Hp) as H. unfold remove in Hb.
    destruct (update_at p remove_entry (tree st)) as [t' e]. by injection Hb as _ <-.
Qed.

(** A property that every turn of the body carries over, whether the turn
    returns or raises, holds when the loop is left. *)
Lemma for_each_invariant_any {A} (P : state → Prop) (l : list A) body st r st' :
  (∀ x s r s', x ∈ l → P s → body x s = (r, s') → P s') →
  P st → for_each l body st = (r, st') → P st'.
Proof.
  revert st. induction l as [|x l IH]; intros st Hstep HP Hrun.
  { by injection Hrun as _ <-. }
  simpl in Hrun. unfold mbind, M_bind in Hrun.
  destruct (body x st) as [[[]|e] s1] eqn:Hx.
  - eapply IH; [|eapply Hstep; [|done..]|done]; [|by left].
    intros y s r0 s' Hy. apply Hstep. by right.
  - injection Hrun as _ <-. eapply Hstep; [|done..]. by left.
Qed.

(** On trees whose common paths agree in kind, whatever the calls of the
    create and copy loops have put at a path the source lists has the kind
    the source has there. *)
Lemma grows_agree src t0 t q k :
  Forall (λ q, kindp src q = kindp t0 q)
         (dict_get (classify (content_of src) (content_of t0)) "copied") →
  grows src t0 t → listed src q → kindp t q = Some k → kindp src q = Some k.
Proof.
  intros Hagree [_ Horigin] Hq Hk. rewrite Forall_forall in Hagree.
  pose proof Hq as (Hne & Hvis & Hs).
  apply Horigin in Hk as [Hk|[Hk|(_ & r & y & -> & Hfile & _)]]; [|done|].
  - rewrite (Hagree q); [done|]. apply elem_of_copied. split; [done|].
    repeat split; [done..|]. apply kindp_is_Some. by rewrite Hk.
  - apply kindp_is_Some in Hs. rewrite kindp_below_file in Hs; [by destruct Hs| |done].
    by rewrite Hfile.
Qed.

Lemma create_loop_keeps_mirrored src l st r st' q d :
  for_each l (create_body src) st = (r, st') →
  lookup_path src q = Some (File d) → lookup_path (tree st) q = Some (File d) →
  lookup_path (tree st') q = Some (File d).
Proof.
  intros Hrun Hs Ht.
  apply (for_each_invariant_any (λ s, lookup_path (tree s) q = Some (File d))
           l (create_body src) st r st'); [|done..].
  intros x s r0 s' _ HP Hb. by eapply create_body_keeps_mirrored.
Qed.

Lemma copy_loop_keeps_mirrored src l st r st' q d :
  for_each l (copy_body src) st = (r, st') →
  lookup_path src q = Some (File d) → lookup_path (tree st) q = Some (File d) →
  lookup_path (tree st') q = Some (File d).
Proof.
  intros Hrun Hs Ht.
  apply (for_each_invariant_any (λ s, lookup_path (tree s) q = Some (File d))
           l (copy_body src) st r st'); [|done..].
  intros x s r0 s' _ HP Hb. by eapply copy_body_keeps_mirrored.
Qed.

Lemma remove_loop_keeps_file src l st r st' q d :
  for_each l (remove_body src) st = (r, st') →
  (∀ p, p ∈ l → ¬ p `prefix_of` q) → lookup_path (tree st) q = Some (File d) →
  lookup_path (tree st') q = Some (File d).
Proof.
  intros Hrun Hl Ht.
  apply (for_each_invariant_any (λ s, lookup_path (tree s) q = Some (File d))
           l (remove_body src) st r st'); [|done..].
  intros x s r0 s' Hx HP Hb. eapply remove_body_keeps_file; [done| |done]. by apply Hl.
Qed.

(** After a pass that returns, on trees whose common paths agree in kind,
    every file the source lists is in the destination with the content, the
    timestamps and the mode of the source. *)
Lemma pass_mirrors_files src st a st' q d :
  Forall (λ q, kindp src q = kindp (tree st) q)
         (dict_get (classify (content_of src) (content_of (tree st))) "copied") →
  synchronize_folders src st = (Ok a, st') →
  listed src q → lookup_path src q = Some (File d) →
  lookup_path (tree st') q = Some (File d).
Proof.
  intros Hagree (-> & st1 & st2 & Hcreate & Hcopy & Hrem)%synchronize_folders_Ok Hq Hd.
  rewrite Forall_forall in Hagree.
  assert (kindp src q = Some KFile) as Hkq by (unfold kindp; by rewrite Hd).
  assert (isdir src q = false) as Hnd by (unfold isdir; by rewrite Hd).
  eapply remove_loop_keeps_file; [exact Hrem| |].
  { intros p [Hp Hnp]%elem_of_remove_order Hpre. apply Hnp.
    apply (listed_prefix _ p q); [done| |done]. by destruct Hp. }
  destruct (decide (listed (tree st) q)) as [Hdq|Hndq].
  - (* listed on both sides: a file on both sides, overwritten by the copy loop *)
    assert (kindp (tree st) q = Some KFile) as Hkd.
    { rewrite <-(Hagree q); [done|]. by apply elem_of_copied. }
    pose proof (create_phase_Ok _ _ _ _ Hcreate) as [[Hmono1 _] _].
    destruct q as [|x r]; [by destruct Hq|].
    assert (listed src [x] ∧ listed (tree st) [x]) as [Hsx Hdx].
    { split; apply (listed_prefix _ [x] (x :: r)); try done;
        by apply (prefix_app_r [x] [x] r). }
    assert ([x] ∈ copy_order (classify (content_of src) (content_of (tree st)))) as Hin.
    { by apply elem_of_copy_order. }
    destruct (for_each_split_Ok _ _ _ _ _ Hin Hcopy) as (l1 & l2 & sa & sb & H1 & Hx & H2).
    eapply copy_loop_keeps_mirrored; [exact H2|done|].
    pose proof (copy_phase_Ok _ _ _ _ H1) as [Hmono2 _].
    assert (kindp (tree sa) (x :: r) = Some KFile) as Hka by (by apply Hmono2, Hmono1).
    rewrite copy_body_exec in Hx. apply exec_Ok in Hx as [Hx _].
    unfold copy_call in Hx. destruct (isdir src [x]) eqn:Hix; simpl in Hx.
    + apply copytree_ok in Hx as (_ & _ & Hfiles).
      apply (Hfiles r d); [done|]. simpl. by rewrite Hka.
    + destruct r as [|y r].
      * apply copy2_ok in Hx as (d' & Hd' & _ & Hl & _).
        unfold copy2_target in Hl. replace (isdir (tree sa) [x]) with false in Hl.
        2:{ symmetry. apply isdir_false_kindp. by rewrite Hka. }
        congruence.
      * apply isdir_false_kindp in Hix. destruct Hix.
        apply (lookup_path_prefix_dir src [x] (x :: y :: r)); [|done|by rewrite Hd].
        by apply (prefix_app_r [x] [x] (y :: r)).
  - (* in the source only: written by the create loop *)
    assert (q ∈ create_order (classify (content_of src) (content_of (tree st)))) as Hin.
    { by apply elem_of_create_order. }
    destruct (for_each_split_Ok _ _ _ _ _ Hin Hcreate) as (l1 & l2 & sa & sb & H1 & Hx & H2).
    eapply copy_loop_keeps_mirrored; [exact Hcopy|done|].
    eapply create_loop_keeps_mirrored; [exact H2|done|].
    pose proof (create_phase_Ok _ _ _ _ H1) as [[_ Horigin] _].
    rewrite create_body_exec in Hx. apply exec_Ok in Hx as [Hx _].
    unfold create_call in Hx. rewrite Hnd in Hx. simpl in Hx.
    apply copy2_ok in Hx as (d' & Hd' & _ & Hl & _).
    unfold copy2_target in Hl. replace (isdir (tree sa) q) with false in Hl; [congruence|].
    symmetry. apply isdir_false_kindp. intros Hk.
    apply Horigin in Hk as [Hk|[Hk|(? & _)]]; [|congruence|done].
    apply Hndq. destruct Hq as (? & ? & _). repeat split; [done..|].
    apply kindp_is_Some. by rewrite Hk.
Qed.



(* ===================================================================== *)
(** * What a pass never takes away *)
(* ===================================================================== *)

(** A primitive that keeps the kinds of what it is given keeps the kinds of
    the whole tree, whether it raises or not. *)
Lemma update_at_mono p f o q k :
  (∀ o' r k', kindp o' r = Some k' → kindp (f o').1 r = Some k') →
  kindp o q = Some k → kindp (update_at p f o).1 q = Some k.
Proof.
  intros Hf Hq. destruct (prefix_of_cases p q) as [[r ->]|Hn]; [|by rewrite update_at_frame].
  assert (is_Some (lookup_path o p)) as Hs.
  { apply (lookup_path_prefix _ _ (p ++ r)); [by apply prefix_app_r|].
    apply kindp_is_Some. by rewrite Hq. }
  unfold kindp at 1. rewrite update_at_under by done. apply Hf. by rewrite <-kindp_app.
Qed.

Lemma mkdir_entry_mono exist_ok o r k :
  kindp o r = Some k → kindp (mkdir_entry exist_ok o).1 r = Some k.
Proof. destruct o as [[d|cs]|]; simpl; [done..|]. unfold kindp. by rewrite lookup_path_None. Qed.

Lemma makedirs_mono exist_ok p t q k :
  kindp t q = Some k → kindp (makedirs exist_ok p t).1 q = Some k.
Proof.
  unfold makedirs. generalize (length p). intros n. revert t.
  induction n as [|m IH]; intros t Hq.
  - apply update_at_mono; [apply mkdir_entry_mono|done].
  - simpl makedirs_prefix.
    change (match p with [] => [] | y :: l => y :: take m l end) with (take (S m) p).
    destruct (exists_path t (take m p)).
    + apply update_at_mono; [apply mkdir_entry_mono|done].
    + specialize (IH t Hq). destruct (makedirs_prefix exist_ok p m t) as [t1 e1].
      simpl in IH. destruct e1 as [[]|]; simpl; try done;
        (apply update_at_mono; [apply mkdir_entry_mono|done]).
Qed.

Lemma copy2_mono src p t q k :
  kindp t q = Some k → kindp (copy2 src p p t).1 q = Some k.
Proof.
  intros Hq. unfold copy2. destruct (lookup_path src p) as [[d|scs]|]; [|done..].
  apply update_at_mono; [|done]. intros o' r k'. apply copy2_entry_mono.
Qed.

Lemma copytree_mono src p t q k :
  kindp t q = Some k → kindp (copytree src p p t).1 q = Some k.
Proof.
  intros Hq. unfold copytree. destruct (lookup_path src p) as [[d|scs]|]; [done| |done].
  pose proof (makedirs_mono true p t q k Hq) as Hm.
  destruct (makedirs true p t) as [t1 [e1|]]; [done|].
  apply update_at_mono; [|done]. intros o' r k'. apply copytree_node_mono.
Qed.

(** [os.remove] and [os.rmdir] touch the entry they are called on only. *)
Lemma update_at_unlink p f o q k :
  (∀ cs, (f (Some (Dir cs))).1 = Some (Dir cs) ∨ cs = ∅) →
  q ≠ p → kindp o q = Some k → kindp (update_at p f o).1 q = Some k.
Proof.
  intros Hf Hne Hq. destruct (prefix_of_cases p q) as [[r ->]|Hn]; [|by rewrite update_at_frame].
  assert (r ≠ []) as Hr by (intros ->; by rewrite app_nil_r in Hne).
  assert (is_Some (lookup_path o p)) as Hs.
  { apply (lookup_path_prefix _ _ (p ++ r)); [by apply prefix_app_r|].
    apply kindp_is_Some. by rewrite Hq. }
  unfold kindp at 1. rewrite update_at_under by done.
  rewrite kindp_app in Hq. destruct Hs as [n Hn]. rewrite Hn in Hq |- *.
  destruct n as [d|cs].
  - unfold kindp in Hq. by rewrite lookup_path_File in Hq.
  - destruct (Hf cs) as [->| ->]; [done|].
    destruct r as [|y r]; [done|]. unfold kindp in Hq. simpl in Hq.
    by rewrite lookup_empty, lookup_path_None in Hq.
Qed.

Lemma remove_keeps p t q k :
  q ≠ p → kindp t q = Some k → kindp (remove p t).1 q = Some k.
Proof. apply update_at_unlink. intros cs. by left. Qed.

Lemma rmdir_keeps p t q k :
  q ≠ p → kindp t q = Some k → kindp (rmdir p t).1 q = Some k.
Proof.
  apply update_at_unlink. intros cs. simpl. case_decide as Hsz; [|by left].
  right. by apply map_size_empty_iff.
Qed.

Lemma exec_tree src c st : tree (exec src c st).2 = (run_call src c (tree st)).1.
Proof. unfold exec. by destruct (run_call src c (tree st)). Qed.

Lemma create_body_mono src p st q k :
  kindp (tree st) q = Some k → kindp (tree (create_body src p st).2) q = Some k.
Proof.
  intros Hq. rewrite create_body_exec, exec_tree. unfold create_call.
  destruct (isdir src p); simpl; [by apply makedirs_mono|by apply copy2_mono].
Qed.

Lemma copy_body_mono src p st q k :
  kindp (tree st) q = Some k → kindp (tree (copy_body src p st).2) q = Some k.
Proof.
  intros Hq. rewrite copy_body_exec, exec_tree. unfold copy_call.
  destruct (isdir src p); simpl; [by apply copytree_mono|by apply copy2_mono].
Qed.

Lemma remove_body_keeps src p st q k :
  q ≠ p → kindp (tree st) q = Some k → kindp (tree (remove_body src p st).2) q = Some k.
Proof.
  intros Hne Hq. rewrite remove_body_exec, exec_tree. unfold remove_call.
  destruct (isdir (tree st) p); simpl; [by apply rmdir_keeps|by apply remove_keeps].
Qed.

(** A property of the destination that every turn of each of the three
    loops carries over, whether the turn returns or raises, holds when the
    pass is left, whether it returns or raises. *)
Lemma synchronize_folders_invariant (P : state → Prop) src st r st' :
  let actions := classify (content_of src) (content_of (tree st)) in
  (∀ x s, x ∈ create_order actions → P s → P (create_body src x s).2) →
  (∀ x s, x ∈ copy_order actions → P s → P (copy_body src x s).2) →
  (∀ x s, x ∈ remove_order actions → P s → P (remove_body src x s).2) →
  P st → synchronize_folders src st = (r, st') → P st'.
Proof.
  intros actions H1 H2 H3 HP Hrun.
  unfold synchronize_folders, mbind at 1, M_bind, gets in Hrun.
  fold actions in Hrun. unfold mbind, M_bind in Hrun.
  destruct (for_each (create_order actions) (create_body src) st) as [r1 st1] eqn:E1.
  assert (P st1) as HP1.
  { eapply for_each_invariant_any; [|exact HP|exact E1].
    intros x s r0 s' Hx Hs Hb. specialize (H1 x s Hx Hs). by rewrite Hb in H1. }
  destruct r1 as [[]|e1]; [|by injection Hrun as _ <-].
  destruct (for_each (copy_order actions) (copy_body src) st1) as [r2 st2] eqn:E2.
  assert (P st2) as HP2.
  { eapply for_each_invariant_any; [|exact HP1|exact E2].
    intros x s r0 s' Hx Hs Hb. specialize (H2 x s Hx Hs). by rewrite Hb in H2. }
  destruct r2 as [[]|e2]; [|by injection Hrun as _ <-].
  destruct (for_each (remove_order actions) (remove_body src) st2) as [r3 st3] eqn:E3.
  assert (P st3) as HP3.
  { eapply for_each_invariant_any; [|exact HP2|exact E3].
    intros x s r0 s' Hx Hs Hb. specialize (H3 x s Hx Hs). by rewrite Hb in H3. }
  by destruct r3 as [[]|e3]; injection Hrun as _ <-.
Qed.



(* ===================================================================== *)
(** * When the create loop returns *)
(* ===================================================================== *)

(** Below a directory that exists the walk reaches the entry, so the outcome
    is the outcome of the primitive. *)
Lemma update_at_child p y f o :
  kindp o p = Some KDir →
  (update_at (p ++ [y]) f o).2 = (f (lookup_path o (p ++ [y]))).2.
Proof.
  revert o. induction p as [|x p IH]; intros o Hk.
  - destruct o as [[d|cs]|]; [done| |done]. simpl. by destruct (f (cs !! y)).
  - destruct o as [[d|cs]|]; [done| |done]. unfold kindp in Hk. simpl in *.
    specialize (IH (cs !! x) Hk). by destruct (update_at (p ++ [y]) f (cs !! x)).
Qed.

Lemma makedirs_fresh exist_ok p y t :
  kindp t p = Some KDir → kindp t (p ++ [y]) = None →
  (makedirs exist_ok (p ++ [y]) t).2 = None.
Proof.
  intros Hp Hn. unfold makedirs.
  remember (p ++ [y]) as pp eqn:Hpp.
  assert (length pp = S (length p)) as Hlen by (subst; rewrite length_app; simpl; lia).
  assert ((update_at pp (mkdir_entry exist_ok) t).2 = None) as Hleaf.
  { subst pp. rewrite update_at_child by done. apply kindp_None in Hn. by rewrite Hn. }
  rewrite Hlen. simpl makedirs_prefix.
  assert (exists_path t (take (length p) pp) = true) as ->.
  { subst pp. rewrite take_app_length. apply exists_path_true, kindp_is_Some. by rewrite Hp. }
  change (match pp with [] => [] | y :: l => y :: take (length p) l end)
    with (take (S (length p)) pp).
  rewrite <-Hlen, firstn_all. exact Hleaf.
Qed.

Lemma copy2_fresh src p y d t :
  lookup_path src (p ++ [y]) = Some (File d) →
  kindp t p = Some KDir → kindp t (p ++ [y]) ≠ Some KDir →
  (copy2 src (p ++ [y]) (p ++ [y]) t).2 = None.
Proof.
  intros Hsrc Hp Hn. unfold copy2. rewrite Hsrc, update_at_child by done.
  unfold kindp in Hn. by destruct (lookup_path t (p ++ [y])) as [[d0|cs]|].
Qed.

Lemma create_order_NoDup o s : NoDup (create_order (classify o s)).
Proof. unfold create_order. rewrite sorted_perm, classify_created. apply NoDup_elements. Qed.

Lemma remove_order_NoDup o s : NoDup (remove_order (classify o s)).
Proof. unfold remove_order. rewrite sorted_perm, classify_removed. apply NoDup_elements. Qed.

Lemma copy_order_NoDup o s : NoDup (copy_order (classify o s)).
Proof. unfold copy_order. apply NoDup_filter. rewrite classify_copied. apply NoDup_elements. Qed.

Lemma snoc_inv (p : path) : p ≠ [] → ∃ p' y, p = p' ++ [y].
Proof. induction p as [|y p' _] using rev_ind; [done|eauto]. Qed.

Lemma not_listed_None t p : p ≠ [] → visible p → ¬ listed t p → kindp t p = None.
Proof.
  intros Hne Hvis Hn. destruct (kindp t p) eqn:Hk; [|done]. destruct Hn.
  repeat split; [done..|]. apply kindp_is_Some. by rewrite Hk.
Qed.

(** One turn of the create loop, on a destination whose root is a directory
    and whose common paths agree in kind with the source: when the created
    paths before [p] are in the destination as the source has them and
    nothing else has changed, the call for [p] returns and the same holds
    with [p] included. *)
Lemma create_step src st l1 p l2 s :
  kindp (tree st) [] = Some KDir →
  Forall (λ q, kindp src q = kindp (tree st) q)
         (dict_get (classify (content_of src) (content_of (tree st))) "copied") →
  create_order (classify (content_of src) (content_of (tree st))) = l1 ++ p :: l2 →
  (∀ q, kindp (tree s) q = if decide (q ∈ l1) then kindp src q else kindp (tree st) q) →
  ∃ s', create_body src p s = (Ok tt, s') ∧
        ∀ q, kindp (tree s') q =
             if decide (q ∈ l1 ++ [p]) then kindp src q else kindp (tree st) q.
Proof.
  intros Hroot Hagree Hord Hinv. rewrite Forall_forall in Hagree.
  assert (∀ q, q ∈ l1 → listed src q ∧ ¬ listed (tree st) q) as Hl1.
  { intros q Hq. apply elem_of_create_order. rewrite Hord. apply elem_of_app. by left. }
  assert (listed src p ∧ ¬ listed (tree st) p) as [Hsp Hndp].
  { apply elem_of_create_order. rewrite Hord. apply elem_of_app. right. by left. }
  assert (p ∉ l1) as Hfresh.
  { pose proof (create_order_NoDup (content_of src) (content_of (tree st))) as Hnd.
    rewrite Hord in Hnd. apply NoDup_app in Hnd as (_ & Hnd & _).
    intros Hin. apply (Hnd p Hin). by left. }
  pose proof Hsp as (Hne & Hvis & Hs).
  assert (kindp (tree s) p = None) as Hkp.
  { rewrite Hinv, decide_False by done. by apply not_listed_None. }
  destruct (snoc_inv p Hne) as (p' & y & ->).
  assert (kindp src p' = Some KDir) as Hsp'.
  { apply (lookup_path_prefix_dir src p' (p' ++ [y])); [by apply prefix_app_r| |done].
    intros Heq. rewrite <-(app_nil_r p') in Heq at 1. by apply app_inv_head in Heq. }
  assert (kindp (tree s) p' = Some KDir) as Hparent.
  { rewrite Hinv. destruct (decide (p' ∈ l1)) as [|Hnl]; [done|].
    destruct (decide (p' = [])) as [->|Hne']; [done|].
    assert (listed src p') as Hlp'.
    { apply (listed_prefix _ p' (p' ++ [y])); [by apply prefix_app_r|done..]. }
    destruct (decide (listed (tree st) p')) as [Hd|Hnd].
    - rewrite <-(Hagree p'); [done|]. by apply elem_of_copied.
    - destruct Hnl. eapply (sorted_ascending_before depth); [exact Hord| |].
      + by apply elem_of_created.
      + rewrite !depth_length, length_app. simpl. lia. }
  assert (∀ q, q `prefix_of` p' ++ [y] → q ≠ p' ++ [y] → is_Some (kindp (tree s) q)) as Hanc.
  { intros q [r Hr] Hq. apply kindp_is_Some. apply (lookup_path_prefix _ q p').
    - destruct r as [|z r] using rev_ind; [by rewrite app_nil_r in Hr|].
      rewrite app_assoc in Hr. apply app_inj_tail in Hr as [-> _]. by apply prefix_app_r.
    - apply kindp_is_Some. by rewrite Hparent. }
  rewrite create_body_exec. unfold exec, create_call.
  destruct (run_call src (if isdir src (p' ++ [y]) then Makedirs (p' ++ [y])
                          else Copy2 (p' ++ [y])) (tree s)) as [t' e] eqn:Hrun.
  destruct (isdir src (p' ++ [y])) eqn:Hd; simpl in Hrun.
  - pose proof (makedirs_fresh false p' y (tree s) Hparent Hkp) as He.
    rewrite Hrun in He. simpl in He. subst e. eexists. split; [done|]. simpl.
    apply makedirs_ok in Hrun as (_ & _ & Hk). intros q. rewrite Hk.
    destruct (decide (q = p' ++ [y])) as [->|Hq].
    + rewrite Hkp, decide_True by done. rewrite decide_True by (apply elem_of_app; right; by left).
      symmetry. by apply isdir_kindp.
    + destruct (kindp (tree s) q) as [k|] eqn:Hkq.
      * rewrite <-Hkq, Hinv. destruct (decide (q ∈ l1)) as [Hin|Hin].
        -- rewrite decide_True; [done|]. apply elem_of_app. by left.
        -- rewrite decide_False; [done|]. intros [?|Hin']%elem_of_app; [done|].
           by apply list_elem_of_singleton in Hin'.
      * case_decide as Hpre.
        { destruct (Hanc q Hpre Hq) as [k Hk']. congruence. }
        rewrite <-Hkq, Hinv. destruct (decide (q ∈ l1)) as [Hin|Hin].
        -- rewrite decide_True; [done|]. apply elem_of_app. by left.
        -- rewrite decide_False; [done|]. intros [?|Hin']%elem_of_app; [done|].
           by apply list_elem_of_singleton in Hin'.
  - destruct Hs as [n Hn]. destruct n as [d|scs].
    2:{ unfold isdir in Hd. by rewrite Hn in Hd. }
    assert (kindp (tree s) (p' ++ [y]) ≠ Some KDir) as Hnk by by rewrite Hkp.
    pose proof (copy2_fresh src p' y d (tree s) Hn Hparent Hnk) as He.
    rewrite Hrun in He. simpl in He. subst e. eexists. split; [done|]. simpl.
    apply copy2_ok in Hrun as (d' & Hd' & _ & Hnew & Hfr).
    unfold copy2_target in Hnew, Hfr.
    replace (isdir (tree s) (p' ++ [y])) with false in Hnew, Hfr.
    2:{ symmetry. apply isdir_false_kindp. by rewrite Hkp. }
    intros q. destruct (decide (q = p' ++ [y])) as [->|Hq].
    + rewrite decide_True by (apply elem_of_app; right; by left).
      unfold kindp. by rewrite Hnew, Hd'.
    + rewrite Hfr, Hinv by done. destruct (decide (q ∈ l1)) as [Hin|Hin].
      * rewrite decide_True; [done|]. apply elem_of_app. by left.
      * rewrite decide_False; [done|]. intros [?|Hin']%elem_of_app; [done|].
        by apply list_elem_of_singleton in Hin'.
Qed.

Lemma create_loop_from src st l2 : ∀ l1 s,
  kindp (tree st) [] = Some KDir →
  Forall (λ q, kindp src q = kindp (tree st) q)
         (dict_get (classify (content_of src) (content_of (tree st))) "copied") →
  create_order (classify (content_of src) (content_of (tree st))) = l1 ++ l2 →
  (∀ q, kindp (tree s) q = if decide (q ∈ l1) then kindp src q else kindp (tree st) q) →
  ∃ s', for_each l2 (create_body src) s = (Ok tt, s') ∧
        ∀ q, kindp (tree s') q =
             if decide (q ∈ create_order (classify (content_of src) (content_of (tree st))))
             then kindp src q else kindp (tree st) q.
Proof.
  induction l2 as [|p l2 IH]; intros l1 s Hroot Hagree Hord Hinv.
  - exists s. split; [done|]. rewrite Hord, app_nil_r. done.
  - destruct (create_step src st l1 p l2 s Hroot Hagree Hord Hinv) as (s1 & Hb & Hinv1).
    destruct (IH (l1 ++ [p]) s1 Hroot Hagree) as (s' & Hrun & Hfin); [|done|].
    { by rewrite <-app_assoc. }
    exists s'. split; [|done]. apply for_each_cons_Ok. eauto.
Qed.

(** On a destination whose root is a directory and whose common paths agree
    in kind with the source, the create loop returns; afterwards the created
    paths have the kind the source gives them and every other path is as it
    was. *)
Lemma create_loop_returns src st :
  kindp (tree st) [] = Some KDir →
  Forall (λ q, kindp src q = kindp (tree st) q)
         (dict_get (classify (content_of src) (content_of (tree st))) "copied") →
  ∃ st1, for_each (create_order (classify (content_of src) (content_of (tree st))))
           (create_body src) st = (Ok tt, st1) ∧
         ∀ q, kindp (tree st1) q =
              if decide (q ∈ create_order (classify (content_of src) (content_of (tree st))))
              then kindp src q else kindp (tree st) q.
Proof.
  intros Hroot Hagree. apply (create_loop_from src st _ [] st); [done..|].
  intros q. rewrite decide_False; [done|]. apply not_elem_of_nil.
Qed.

(* ===================================================================== *)
(** * When a pass returns *)
(* ===================================================================== *)

(** After the create loop the destination is ready for the copy loop, when
    no entry of the destination is hidden. *)
Lemma ready_after_create src st st1 :
  (∀ q, is_Some (kindp (tree st) q) → visible q) →
  Forall (λ q, kindp src q = kindp (tree st) q)
         (dict_get (classify (content_of src) (content_of (tree st))) "copied") →
  (∀ q, kindp (tree st1) q =
        if decide (q ∈ create_order (classify (content_of src) (content_of (tree st))))
        then kindp src q else kindp (tree st) q) →
  ready src (tree st1).
Proof.
  intros Hvis Hagree Hex x Hx. rewrite Forall_forall in Hagree.
  assert (∀ q k k', kindp src ([x] ++ q) = Some k → kindp (tree st1) ([x] ++ q) = Some k' →
                    k = k') as Hsame.
  { intros q k k' Hs Hd. rewrite Hex in Hd. case_decide; [congruence|].
    assert (visible ([x] ++ q)) as Hv by (apply Hvis; rewrite Hd; eauto).
    rewrite (Hagree ([x] ++ q)) in Hs; [congruence|]. apply elem_of_copied.
    split; (repeat split; [done..|]); apply kindp_is_Some; [rewrite Hs|rewrite Hd]; eauto. }
  split.
  - rewrite Hex. case_decide as Hin; [done|]. symmetry. apply Hagree, elem_of_copied.
    split; [done|]. destruct (decide (listed (tree st) [x])) as [|Hn]; [done|].
    destruct Hin. by apply elem_of_create_order.
  - split.
    + intros q Hq Hf. rewrite <-kindp_app in Hq, Hf.
      by pose proof (Hsame _ _ _ Hq Hf).
    + intros q y Hq Hd _. rewrite <-kindp_app in Hq, Hd.
      by pose proof (Hsame _ _ _ Hq Hd).
Qed.

Lemma remove_returns p t : kindp t p = Some KFile → (remove p t).2 = None.
Proof.
  intros Hk. unfold remove. rewrite update_at_reached.
  2:{ apply kindp_is_Some. rewrite Hk. eauto. }
  unfold kindp in Hk. by destruct (lookup_path t p) as [[d|cs]|].
Qed.

Lemma rmdir_returns p t :
  kindp t p = Some KDir → (∀ y, kindp t (p ++ [y]) = None) → (rmdir p t).2 = None.
Proof.
  intros Hk Hempty. unfold rmdir. rewrite update_at_reached.
  2:{ apply kindp_is_Some. rewrite Hk. eauto. }
  unfold kindp in Hk. destruct (lookup_path t p) as [[d|cs]|] eqn:Hp; [done| |done].
  simpl. rewrite decide_True; [done|]. apply map_size_empty_iff, map_empty. intros y.
  specialize (Hempty y). apply kindp_None in Hempty.
  by rewrite lookup_path_app, Hp in Hempty.
Qed.

(** One turn of the remove loop, when no entry of the destination is hidden:
    the removed paths before [p] being gone, the call for [p] returns. *)
Lemma remove_step src st st2 l1 p l2 s :
  (∀ q, is_Some (kindp (tree st) q) → visible q) →
  grows src (tree st) (tree st2) →
  remove_order (classify (content_of src) (content_of (tree st))) = l1 ++ p :: l2 →
  for_each l1 (remove_body src) st2 = (Ok tt, s) →
  ∃ s', remove_body src p s = (Ok tt, s').
Proof.
  intros Hvis [Hmono Horigin] Hord Hpre.
  pose proof (remove_phase_Ok _ _ _ _ Hpre) as Hk.
  assert (listed (tree st) p ∧ ¬ listed src p) as [Hdp Hnsp].
  { apply elem_of_remove_order. rewrite Hord. apply elem_of_app. right. by left. }
  assert (p ∉ l1) as Hfresh.
  { pose proof (remove_order_NoDup (content_of src) (content_of (tree st))) as Hnd.
    rewrite Hord in Hnd. apply NoDup_app in Hnd as (_ & Hnd & _).
    intros Hin. apply (Hnd p Hin). by left. }
  pose proof Hdp as (Hne & Hvp & [k Hkp]%kindp_is_Some).
  assert (kindp (tree s) p = Some k) as Hsp.
  { rewrite Hk, decide_False by done. by apply Hmono. }
  assert (∀ q, is_Some (kindp src q) → ¬ p `prefix_of` q) as Hnsrc.
  { intros q Hq Hpre'. apply Hnsp. repeat split; [done..|].
    apply (lookup_path_prefix _ p q); [done|]. by apply kindp_is_Some. }
  rewrite remove_body_exec. unfold exec, remove_call.
  destruct (run_call src (if isdir (tree s) p then Rmdir p else Remove p) (tree s))
    as [t' e] eqn:Hrun.
  destruct (isdir (tree s) p) eqn:Hd; simpl in Hrun.
  - apply isdir_kindp in Hd.
    assert ((rmdir p (tree s)).2 = None) as He.
    { apply rmdir_returns; [done|]. intros y.
      rewrite Hk. case_decide as Hin; [done|].
      destruct (kindp (tree st2) (p ++ [y])) as [k'|] eqn:Hc; [|done]. exfalso.
      apply Horigin in Hc as [Hc|[Hc|(_ & r & z & Heq & Hfile & _)]].
      + apply Hin. eapply (sorted_descending_before depth); [exact Hord| |].
        * apply elem_of_removed. split.
          -- split; [by destruct p|]. split; [apply Hvis; rewrite Hc; eauto|].
             apply kindp_is_Some. rewrite Hc. eauto.
          -- intros (_ & _ & Hs). apply (Hnsrc (p ++ [y])); [|by apply prefix_app_r].
             by apply kindp_is_Some.
        * rewrite !depth_length, length_app. simpl. lia.
      + apply (Hnsrc (p ++ [y])); [rewrite Hc; eauto|by apply prefix_app_r].
      + apply app_inj_tail in Heq as [<- _]. apply (Hnsrc p); [rewrite Hfile; eauto|done]. }
    rewrite Hrun in He. simpl in He. subst e. eauto.
  - assert ((remove p (tree s)).2 = None) as He.
    { apply remove_returns. apply isdir_false_kindp in Hd. rewrite Hsp in Hd |- *.
      destruct k; [done|congruence]. }
    rewrite Hrun in He. simpl in He. subst e. eauto.
Qed.

Lemma remove_loop_from src st st2 l2 : ∀ l1 s,
  (∀ q, is_Some (kindp (tree st) q) → visible q) →
  grows src (tree st) (tree st2) →
  remove_order (classify (content_of src) (content_of (tree st))) = l1 ++ l2 →
  for_each l1 (remove_body src) st2 = (Ok tt, s) →
  ∃ s', for_each l2 (remove_body src) s = (Ok tt, s').
Proof.
  induction l2 as [|p l2 IH]; intros l1 s Hvis Hg Hord Hpre; [by exists s|].
  destruct (remove_step src st st2 l1 p l2 s Hvis Hg Hord Hpre) as (s1 & Hb).
  destruct (IH (l1 ++ [p]) s1 Hvis Hg) as (s' & Hrun).
  { by rewrite <-app_assoc. }
  { rewrite for_each_app, Hpre. apply for_each_cons_Ok. by exists s1. }
  exists s'. apply for_each_cons_Ok. eauto.
Qed.


Lemma log_dst_visible q : is_Some (kindp log_dst q) → visible q.
Proof.
  intros [k Hk]. unfold kindp, log_dst in Hk.
  destruct q as [|x q]; [constructor|]. simpl in Hk.
  destruct (decide (x = "b.txt")) as [->|H1].
  { rewrite lookup_insert_eq in Hk. destruct q; [by repeat constructor|]. done. }
  rewrite lookup_insert_ne in Hk by done.
  destruct (decide (x = "d")) as [->|H2].
  { rewrite lookup_singleton_eq in Hk. destruct q as [|y q]; [by repeat constructor|].
    simpl in Hk. destruct (decide (y = "x")) as [->|H3].
    - rewrite lookup_singleton_eq in Hk. destruct q; [by repeat constructor|]. done.
    - rewrite lookup_singleton_ne, lookup_path_None in Hk by done. done. }
  rewrite lookup_singleton_ne, lookup_path_None in Hk by done. done.
Qed.




(* ===================================================================== *)
(** * The calls of a pass, whatever its outcome *)
(* ===================================================================== *)

Lemma action_orders_NoDup o s :
  NoDup (create_order (classify (content_of o) (content_of s)) ++
         copy_order (classify (content_of o) (content_of s)) ++
         remove_order (classify (content_of o) (content_of s))).
Proof.
  apply NoDup_app. split; [apply create_order_NoDup|]. split.
  - intros p [_ Hnd]%elem_of_create_order [[[_ Hd] _]%elem_of_copy_order
                                          |[Hd _]%elem_of_remove_order]%elem_of_app; done.
  - apply NoDup_app. split; [apply copy_order_NoDup|]. split; [|apply remove_order_NoDup].
    by intros p [[Hs _] _]%elem_of_copy_order [_ Hns]%elem_of_remove_order.
Qed.

Lemma prefix_elem_of {A} (l1 l2 : list A) x : l1 `prefix_of` l2 → x ∈ l1 → x ∈ l2.
Proof. intros [k ->] Hx. apply elem_of_app. by left. Qed.

(** The journal of one loop: its calls are on a prefix of the list the loop
    runs over, on the whole list when the loop returns, and each call is the
    one the body chooses for its path. *)
Lemma loop_calls src (mk : option node → path → call) (body : path → M unit)
    (P : call → Prop) l st r st' :
  (∀ x s, body x s = exec src (mk (tree s) x) s) →
  (∀ t x, call_path (mk t x) = x) →
  (∀ t x, x ∈ l → P (mk t x)) →
  for_each l body st = (r, st') →
  ∃ cs, calls st' = calls st ++ cs ∧
        call_path <$> cs `prefix_of` l ∧
        (r = Ok tt → call_path <$> cs = l) ∧
        Forall P cs.
Proof.
  intros Hbody Hmk HP Hrun.
  destruct (for_each_journal src mk body l Hbody Hmk st r st' Hrun)
    as (cs & Hcs & Hpre & Hall & HF).
  exists cs. repeat split; [done..|].
  apply Forall_forall. intros c Hc. rewrite Forall_forall in HF.
  destruct (HF c Hc) as [t Ht]. rewrite Ht. apply HP.
  apply (prefix_elem_of _ _ _ Hpre). apply list_elem_of_fmap. by exists c.
Qed.

(** X5.  Whether a pass returns or raises, the calls it makes on the
    destination are on the created paths in ascending depth, then the copied
    paths of depth 1, then the removed paths in descending depth, stopping
    where it raises; no path is the subject of two calls; and each call is
    one the action dict allows: [makedirs] or [copy2] on a created path,
    [copytree] or [copy2] on a copied path of depth 1, [remove] or [rmdir] on
    a removed path. *)
Theorem pass_call_discipline (src : option node) (st : state)
    (r : result (list (string * list path))) (st' : state) :
  synchronize_folders src st = (r, st') →
  let actions := classify (content_of src) (content_of (tree st)) in
  let plan := create_order actions ++ copy_order actions ++ remove_order actions in
  ∃ cs, calls st' = calls st ++ cs ∧
        call_path <$> cs `prefix_of` plan ∧
        NoDup (call_path <$> cs) ∧
        Forall (call_in_order src actions) cs ∧
        (∀ a, r = Ok a → call_path <$> cs = plan).
Proof.
  intros Hrun actions plan.
  assert (∀ cs, call_path <$> cs `prefix_of` plan → NoDup (call_path <$> cs)) as Hnd.
  { intros cs [k Hk]. pose proof (action_orders_NoDup src (tree st)) as H.
    fold actions in H. fold plan in H. rewrite Hk in H. by apply NoDup_app in H as [? _]. }
  unfold synchronize_folders, mbind at 1, M_bind, gets in Hrun.
  fold actions in Hrun. unfold mbind, M_bind in Hrun.
  destruct (for_each (create_order actions) (create_body src) st) as [r1 st1] eqn:E1.
  assert (∀ (t : option node) x, x ∈ create_order actions →
            call_in_order src actions (create_call src x)) as HP1.
  { intros _ x Hx. unfold create_call. destruct (isdir src x) eqn:Hd; simpl; auto. }
  destruct (loop_calls src (λ _, create_call src) _ (call_in_order src actions) _ _ _ _
              (λ x s, f_equal (λ f, f s) (create_body_exec src x))
              (λ _, call_path_create src) HP1 E1) as (cs1 & Hc1 & Hp1 & Hf1 & HF1).
  destruct r1 as [[]|e1].
  2:{ injection Hrun as <- <-. exists cs1.
      assert (call_path <$> cs1 `prefix_of` plan) as Hp by by apply prefix_app_r.
      repeat split; [done|done|by apply Hnd|done|done]. }
  specialize (Hf1 eq_refl).
  destruct (for_each (copy_order actions) (copy_body src) st1) as [r2 st2] eqn:E2.
  assert (∀ (t : option node) x, x ∈ copy_order actions →
            call_in_order src actions (copy_call src x)) as HP2.
  { intros _ x Hx. unfold copy_call. destruct (isdir src x) eqn:Hd; simpl; auto. }
  destruct (loop_calls src (λ _, copy_call src) _ (call_in_order src actions) _ _ _ _
              (λ x s, f_equal (λ f, f s) (copy_body_exec src x))
              (λ _, call_path_copy src) HP2 E2) as (cs2 & Hc2 & Hp2 & Hf2 & HF2).
  destruct r2 as [[]|e2].
  2:{ injection Hrun as <- <-. exists (cs1 ++ cs2).
      assert (call_path <$> cs1 ++ cs2 `prefix_of` plan) as Hp.
      { rewrite fmap_app, Hf1. apply prefix_app, prefix_app_r, Hp2. }
      rewrite Hc2, Hc1, <-app_assoc.
      repeat split; [done|by apply Hnd|by apply Forall_app|done]. }
  specialize (Hf2 eq_refl).
  destruct (for_each (remove_order actions) (remove_body src) st2) as [r3 st3] eqn:E3.
  assert (∀ t x, x ∈ remove_order actions →
            call_in_order src actions (remove_call t x)) as HP3.
  { intros t x Hx. unfold remove_call. by destruct (isdir t x). }
  destruct (loop_calls src remove_call _ (call_in_order src actions) _ _ _ _
              (remove_body_exec src) call_path_remove HP3 E3)
    as (cs3 & Hc3 & Hp3 & Hf3 & HF3).
  assert (call_path <$> cs1 ++ cs2 ++ cs3 `prefix_of` plan) as Hp.
  { rewrite !fmap_app, Hf1, Hf2. by apply prefix_app, prefix_app. }
  assert (calls st3 = calls st ++ cs1 ++ cs2 ++ cs3) as Hc.
  { by rewrite Hc3, Hc2, Hc1, <-!app_assoc. }
  exists (cs1 ++ cs2 ++ cs3).
  destruct r3 as [[]|e3]; injection Hrun as <- <-;
    (repeat split; [done|done|by apply Hnd|by rewrite !Forall_app|]); [|done].
  intros a _. by rewrite !fmap_app, Hf1, Hf2, Hf3.
Qed.

(** The destination [old/.keep] and an empty source: the only call is the
    [rmdir] that raises. *)
Lemma pass_call_discipline_witness :
  let r := synchronize_folders stale_src (State stale_dst []) in
  let actions := classify (content_of stale_src) (content_of stale_dst) in
  r.1 = Raise OSError_ENOTEMPTY ∧
  calls r.2 = [Rmdir ["old"]] ∧
  ∃ cs, calls r.2 = [] ++ cs ∧
        call_path <$> cs `prefix_of`
          create_order actions ++ copy_order actions ++ remove_order actions ∧
        NoDup (call_path <$> cs) ∧
        Forall (call_in_order stale_src actions) cs ∧
        (∀ a, r.1 = Ok a →
              call_path <$> cs
              = create_order actions ++ copy_order actions ++ remove_order actions).
Proof.
  split; [vm_compute; reflexivity|]. split; [vm_compute; reflexivity|].
  exact (pass_call_discipline stale_src (State stale_dst []) _ _ (surjective_pairing _)).
Defined.

(* ===================================================================== *)
(** * The scheduling loop *)
(* ===================================================================== *)

Lemma pass_Ok strftime src o s i w w' :
  pass strftime src o s i w = (Ok tt, w') ↔
  ∃ actions st',
    synchronize_folders src (dst_state w) = (Ok actions, st') ∧
    w' = World st'
           (log_lines (strftime (clock w)) actions)
           (stdout w ++ [started_message (strftime (clock w)) o s i] ++
            log_lines (strftime (clock w)) actions ++
            [strftime (clock w) +:+ " Synchronization complete"])
           (clock w + i).
Proof.
  unfold pass. simpl.
  destruct (synchronize_folders src (dst_state w)) as [[actions|e] st'] eqn:Hs.
  - rewrite log_and_print_actions_spec. simpl. unfold sleep, print. simpl.
    rewrite <-!app_assoc. split.
    + intros [= <-]. by exists actions, st'.
    + intros (a & st0 & [= <- <-] & ->). done.
  - split; [done|]. by intros (a & st0 & ? & _).
Qed.

Lemma pass_Raise strftime src o s i w e w' :
  pass strftime src o s i w = (Raise e, w') ↔
  ∃ st', synchronize_folders src (dst_state w) = (Raise e, st') ∧
         w' = World st' (sync_log w)
                (stdout w ++ [started_message (strftime (clock w)) o s i]) (clock w).
Proof.
  unfold pass. simpl.
  destruct (synchronize_folders src (dst_state w)) as [[actions|e0] st'] eqn:Hs.
  - split; [done|]. by intros (st0 & ? & _).
  - unfold set_dst, print. simpl. split.
    + intros [= <- <-]. by exists st'.
    + intros (st0 & [= <- <-] & ->). done.
Qed.



Lemma synchronization_loop_S strftime n src o s i w :
  synchronization_loop strftime (S n) src o s i w =
  match synchronization_loop strftime n src o s i w with
  | Running w' =>
      match pass strftime src o s i w' with
      | (Raise e, w'') => Died e w''
      | (Ok _, w'') => Running w''
      end
  | Died e w' => Died e w'
  end.
Proof.
  revert w. induction n as [|n IH]; intros w.
  - simpl. by destruct (pass strftime src o s i w) as [[[]|e] w'].
  - change (synchronization_loop strftime (S (S n)) src o s i w)
      with (match pass strftime src o s i w with
            | (Raise e, w') => Died e w'
            | (Ok _, w') => synchronization_loop strftime (S n) src o s i w'
            end).
    change (synchronization_loop strftime (S n) src o s i w)
      with (match pass strftime src o s i w with
            | (Raise e, w') => Died e w'
            | (Ok _, w') => synchronization_loop strftime n src o s i w'
            end).
    destruct (pass strftime src o s i w) as [[[]|e] w']; [apply IH|done].
Qed.


(* ===================================================================== *)
(** * Roots that are not directories *)
(* ===================================================================== *)

(** When the destination lists nothing, the first created path is an entry
    of the source root. *)
Lemma create_order_head src st p l :
  content_of (tree st) = [] →
  create_order (classify (content_of src) (content_of (tree st))) = p :: l →
  ∃ x, p = [x].
Proof.
  intros Hempty Hord.
  assert (∀ q, ¬ listed (tree st) q) as Hnone.
  { intros q Hq%elem_of_content_of. rewrite Hempty in Hq. by apply elem_of_nil in Hq. }
  assert (listed src p) as Hp.
  { apply (elem_of_create_order src (tree st)). rewrite Hord. by left. }
  destruct p as [|x r]; [by destruct Hp|]. exists x.
  assert ([x] ∈ (x :: r) :: l) as Hin.
  { rewrite <-Hord. apply elem_of_create_order. split; [|apply Hnone].
    apply (listed_prefix _ [x] (x :: r)); [by apply (prefix_app_r [x] [x] r)|done..]. }
  destruct (sorted_ascending depth _ [] (x :: r) l Hord) as [_ Hasc].
  apply elem_of_cons in Hin as [Heq|Hin]; [by injection Heq as <-|].
  rewrite Forall_forall in Hasc. apply Hasc in Hin. rewrite !depth_length in Hin.
  simpl in Hin. destruct r; [done|simpl in Hin; lia].
Qed.





(* ===================================================================== *)
(** * Hidden entries *)
(* ===================================================================== *)

(** A call on a path below the root entry [y] leaves what is at or below any
    other root entry as it is, whether it raises or not. *)
Lemma update_at_other_head y p f o x r :
  x ≠ y → lookup_path (update_at (y :: p) f o).1 (x :: r) = lookup_path o (x :: r).
Proof.
  intros Hne. simpl. destruct o as [[d|cs]|]; [done| |done].
  destruct (update_at p f (cs !! y)) as [o' e]. simpl.
  by rewrite lookup_partial_alter_ne.
Qed.

Lemma mkdir_root_other exist_ok t x r :
  lookup_path (mkdir_entry exist_ok t).1 (x :: r) = lookup_path t (x :: r).
Proof.
  destruct t as [[d|cs]|]; simpl; [done..|]. by rewrite lookup_empty, lookup_path_None.
Qed.

Lemma makedirs_other_head exist_ok y p t x r :
  x ≠ y →
  lookup_path (makedirs exist_ok (y :: p) t).1 (x :: r) = lookup_path t (x :: r).
Proof.
  intros Hne. unfold makedirs. generalize (length (y :: p)). intros n.
  induction n as [|m IH].
  - apply mkdir_root_other.
  - simpl makedirs_prefix. destruct (exists_path t (take m (y :: p))).
    + by apply update_at_other_head.
    + destruct (makedirs_prefix exist_ok (y :: p) m t) as [t1 e1]. simpl in IH.
      destruct e1 as [[]|]; simpl; try done;
        (rewrite <-IH; by apply update_at_other_head).
Qed.

Lemma run_call_other_head src c t y p x r :
  call_path c = y :: p → x ≠ y →
  lookup_path (run_call src c t).1 (x :: r) = lookup_path t (x :: r).
Proof.
  intros Hc Hne. destruct c as [q|q|q|q|q]; simpl in Hc; subst q; simpl.
  - by apply makedirs_other_head.
  - unfold copy2. destruct (lookup_path src (y :: p)) as [[d|scs]|]; [|done..].
    by apply update_at_other_head.
  - unfold copytree. destruct (lookup_path src (y :: p)) as [[d|scs]|]; [done| |done].
    pose proof (makedirs_other_head true y p t x r Hne) as Hm.
    destruct (makedirs true (y :: p) t) as [t1 [e1|]]; [done|]. simpl in Hm.
    rewrite <-Hm. by apply update_at_other_head.
  - by apply update_at_other_head.
  - by apply update_at_other_head.
Qed.

Lemma listed_head t p : listed t p → ∃ y p', p = y :: p' ∧ ishidden y = false ∧ listed t [y].
Proof.
  intros Hp. pose proof Hp as (Hne & Hvis & Hs). destruct p as [|y p']; [done|].
  exists y, p'. split; [done|]. split; [by inversion Hvis|].
  apply (listed_prefix _ [y] (y :: p')); [by apply (prefix_app_r [y] [y] p')|done..].
Qed.

(** X10.  Whether a pass returns or raises, it changes nothing at or below
    a hidden name of the destination root: such an entry of the source is
    never copied, and such an entry of the destination is never touched. *)
Theorem hidden_root_entries_untouched (src : option node) (st : state)
    (r : result (list (string * list path))) (st' : state) (x : string) (q : path) :
  synchronize_folders src st = (r, st') →
  ishidden x = true →
  lookup_path (tree st') (x :: q) = lookup_path (tree st) (x :: q).
Proof.
  intros Hrun Hx.
  assert (∀ p, listed src p ∨ listed (tree st) p → ∃ y p', p = y :: p' ∧ x ≠ y) as Hhead.
  { intros p [Hp|Hp]; apply listed_head in Hp as (y & p' & -> & Hy & _);
      exists y, p'; (split; [done|congruence]). }
  apply (synchronize_folders_invariant
           (λ s, lookup_path (tree s) (x :: q) = lookup_path (tree st) (x :: q))
           src st r st'); [| | |done..].
  - intros p s [Hp _]%elem_of_create_order <-.
    destruct (Hhead p (or_introl Hp)) as (y & p' & -> & Hne).
    rewrite create_body_exec, exec_tree.
    by apply (run_call_other_head _ _ _ y p'); [apply call_path_create|].
  - intros p s [[Hp _] _]%elem_of_copy_order <-.
    destruct (Hhead p (or_introl Hp)) as (y & p' & -> & Hne).
    rewrite copy_body_exec, exec_tree.
    by apply (run_call_other_head _ _ _ y p'); [apply call_path_copy|].
  - intros p s [Hp _]%elem_of_remove_order <-.
    destruct (Hhead p (or_intror Hp)) as (y & p' & -> & Hne).
    rewrite remove_body_exec, exec_tree.
    by apply (run_call_other_head _ _ _ y p'); [apply call_path_remove|].
Qed.

(** The source of [hidden_example] and an empty destination: [a.txt] is
    copied, [.env] is not. *)
Lemma hidden_root_entries_untouched_witness :
  let r := synchronize_folders hidden_example (State conv_dst []) in
  (∃ a, r.1 = Ok a) ∧
  ishidden ".env" = true ∧
  is_Some (lookup_path hidden_example [".env"]) ∧
  is_Some (lookup_path (tree r.2) ["a.txt"]) ∧
  lookup_path (tree r.2) [".env"] = None.
Proof.
  intros r. split; [eexists; vm_compute; reflexivity|]. split; [reflexivity|].
  split; [eexists; reflexivity|]. split; [eexists; vm_compute; reflexivity|].
  exact (hidden_root_entries_untouched hidden_example (State conv_dst []) r.1 r.2 ".env" []
           (surjective_pairing _) eq_refl).
Defined.





(* ===================================================================== *)
(** * What a pass removes *)
(* ===================================================================== *)


